(** * util/pcqueue.hh: semaphores, the bounded producer/consumer queue and
      the unbounded single-producer single-consumer queue

    The development follows the header top to bottom.

    - [Linux], [Apple], [Portable]: the three platform variants of
      [Semaphore] and [WaitSemaphore], at the level of the calls they
      wrap.  The operating system is an input: every call of a wrapped
      primitive is given the event that meets it.
    - [Semaphore]: the counter all three variants implement, as the
      queues use it (a [wait] that finds zero suspends the caller).
    - [PCQueue]: the ring buffer over [storage_], both as whole calls
      and as threads that interleave at the semaphore operations.
    - [UnboundedSingleQueue]: the chain of [UnboundedPage]s in a small
      free store with explicit page addresses, both as whole calls and
      as one producer and one consumer that interleave at [valid_]. *)

From Stdlib Require Import ZArith.
From stdpp Require Import base option list gmap strings.

Local Open Scope nat_scope.

(** ** The element type

    [T] "must be default constructable and have operator=".
    [T_default] is the value of an object of type [T] that has just been
    default-constructed, as [T ret;] leaves it and as [new T[size]]
    leaves the slots of a class type.  The copy constructor and
    [operator=] may throw; whether they do is up to [T] and may depend
    on the operands.  A copy or an assignment that does not throw has
    its usual effect: the destination holds the value of the source.
    One that throws leaves its destination as it was. *)
Class Element (T : Type) := {
  T_default : T;
  copy_throws : T → bool;            (* T tmp(src) *)
  assign_throws : T → T → bool       (* dst = src : destination, source *)
}.

(** Elements whose transfers never throw (plain values). *)
Class Nothrow (T : Type) `{Element T} : Prop := {
  copy_nothrow : ∀ src : T, copy_throws src = false;
  assign_nothrow : ∀ dst src : T, assign_throws dst src = false
}.

(** [std::swap(a, b)] of <utility>, as the queue calls it: a temporary
    made from [a], then two assignments,
    [T tmp(a); a = b; b = tmp;].  (With move operations that [T] does
    not declare, the three steps are copies.)  Any of the three may
    throw.  The result says whether one did, and what the two operands
    hold afterwards: a throw in the last step comes after [a] has been
    given the value of [b]. *)
Definition std_swap {T : Type} `{Element T} (a b : T) : bool * (T * T) :=
  if copy_throws a then (true, (a, b))               (* T tmp(a) *)
  else if assign_throws a b then (true, (a, b))      (* a = b *)
  else if assign_throws b a then (true, (b, b))      (* b = tmp *)
  else (false, (b, a)).

(** Natural numbers as elements: a new one is 0, nothing throws. *)
#[export] Instance nat_element : Element nat :=
  {| T_default := 0; copy_throws := λ _, false; assign_throws := λ _ _, false |}.

(** Elements with one value, [None], that cannot be copied: a copy or
    an assignment whose source holds it throws. *)
Definition brittle : Element (option nat) :=
  {| T_default := Some 0;
     copy_throws := λ src, bool_decide (src = None);
     assign_throws := λ _ src, bool_decide (src = None) |}.

(** Elements with one value, [None], that nothing can be assigned to:
    an assignment whose destination holds it throws. *)
Definition sealed : Element (option nat) :=
  {| T_default := Some 0;
     copy_throws := λ _, false;
     assign_throws := λ dst _, bool_decide (dst = None) |}.

(** Exceptions thrown in this header. *)
Inductive exn :=
| ErrnoException (errno : Z) (msg : string)
| Exception (msg : string)
| interprocess_exception (native_error : Z).

(** Modelled from the spec: the macro [UTIL_THROW_IF] of util/exception.hh
    is not among the sources.  Section 4.1 has an underlying failure
    "reported to the caller (propagated)": the macro throws the named
    exception when its condition holds and does nothing otherwise.  The
    result is the exception in flight, if any. *)
Definition UTIL_THROW_IF (condition : bool) (e : exn) : option exn :=
  if condition then Some e else None.

Definition EINTR : Z := 4.

(** What one call of a blocking primitive meets: nothing, so that it
    runs to its end, or a failure with the error number it reports. *)
Inductive event :=
| Undisturbed
| Fails (errno : Z).

(** How a wait ends.  [Pending] is a wait still inside its loop when the
    list of events is used up. *)
Inductive waited :=
| Acquired (value : nat)     (* returned normally; the counter afterwards *)
| Suspended                  (* asleep on a zero counter *)
| Raised (e : exn)
| Pending.

(** How a destructor ends.  A destructor is [noexcept] unless it says
    otherwise, and neither [~Semaphore()] says otherwise: an exception
    that its body throws does not leave it, it ends the program through
    [std::terminate()], which by default calls [abort()]. *)
Inductive teardown :=
| Destroyed
| LoggedAbort (cerr : list string)   (* written to std::cerr, then abort() *)
| Terminated (e : exn)               (* thrown in the body: std::terminate() *)
| Raises (e : exn).                  (* an exception that leaves the destructor *)

(** ** Semaphore, Linux variant (sem_t) *)
Module Linux.

(** sem_wait(3) on a counter: the return value, errno and the counter
    afterwards; [None] when the caller sleeps on a zero counter. *)
Definition sem_wait (ev : event) (sem_ : nat) : option (Z * Z * nat) :=
  match ev with
  | Fails errno => Some ((-1)%Z, errno, sem_)
  | Undisturbed =>
      match sem_ with
      | 0 => None
      | S n => Some (0%Z, 0%Z, n)
      end
  end.

(** [while (-1 == sem_wait(&sem_)) UTIL_THROW_IF(errno != EINTR, ...)] *)
Fixpoint wait (evs : list event) (sem_ : nat) : waited :=
  match evs with
  | [] => Pending
  | ev :: evs' =>
      match sem_wait ev sem_ with
      | None => Suspended
      | Some (r, errno, sem') =>
          if (r =? -1)%Z then
            match UTIL_THROW_IF (negb (errno =? EINTR)%Z)
                    (ErrnoException errno "Wait for semaphore failed") with
            | Some e => Raised e
            | None => wait evs' sem'
            end
          else Acquired sem'
      end
  end.

Definition WaitSemaphore := wait.

(** sem_post(3): the return value, errno and the counter afterwards. *)
Definition sem_post (ev : event) (sem_ : nat) : Z * Z * nat :=
  match ev with
  | Fails errno => ((-1)%Z, errno, sem_)
  | Undisturbed => (0%Z, 0%Z, S sem_)
  end.

(** [UTIL_THROW_IF(-1 == sem_post(&sem_), ...)]: the exception in flight,
    if any, and the counter afterwards. *)
Definition post (ev : event) (sem_ : nat) : option exn * nat :=
  let '(r, errno, sem') := sem_post ev sem_ in
  (UTIL_THROW_IF (-1 =? r)%Z (ErrnoException errno "Could not post to semaphore"),
   sem').

Section Destructor.
(** [ErrnoException().what()], from util/exception.hh. *)
Variable what : Z → string.

(** [~Semaphore()], given what sem_destroy returned and errno. *)
Definition destroy (r errno : Z) : teardown :=
  if (-1 =? r)%Z
  then LoggedAbort ["Could not destroy semaphore "%string; what errno]
  else Destroyed.
End Destructor.

End Linux.

(** ** Semaphore, Apple variant (Mach semaphores) *)
Module Apple.

Definition KERN_SUCCESS : Z := 0.

(** [#define MACH_CALL(call) UTIL_THROW_IF(KERN_SUCCESS != (call), ...)] *)
Definition MACH_CALL (call : Z) : option exn :=
  UTIL_THROW_IF (negb (KERN_SUCCESS =? call)%Z) (Exception "Mach call failure").

(** [~Semaphore() { MACH_CALL(semaphore_destroy(task_, back_)); }],
    given what semaphore_destroy returned.  The body writes nothing;
    what [MACH_CALL] throws meets the [noexcept] of the destructor. *)
Definition destroy (kr : Z) : teardown :=
  match MACH_CALL kr with
  | Some e => Terminated e
  | None => Destroyed
  end.

(** semaphore_wait on a counter: the kern_return_t and the counter
    afterwards; [None] when the caller sleeps on a zero counter.  A
    failure reports its kern_return_t. *)
Definition semaphore_wait (ev : event) (back_ : nat) : option (Z * nat) :=
  match ev with
  | Fails kr => Some (kr, back_)
  | Undisturbed =>
      match back_ with
      | 0 => None
      | S n => Some (KERN_SUCCESS, n)
      end
  end.

(** [void wait() { MACH_CALL(semaphore_wait(back_)); }]: one call, no
    loop. *)
Definition wait (ev : event) (back_ : nat) : waited :=
  match semaphore_wait ev back_ with
  | None => Suspended
  | Some (kr, back') =>
      match MACH_CALL kr with
      | Some e => Raised e
      | None => Acquired back'
      end
  end.

Definition WaitSemaphore := wait.

(** semaphore_signal: the kern_return_t and the counter afterwards. *)
Definition semaphore_signal (ev : event) (back_ : nat) : Z * nat :=
  match ev with
  | Fails kr => (kr, back_)
  | Undisturbed => (KERN_SUCCESS, S back_)
  end.

(** [void post() { MACH_CALL(semaphore_signal(back_)); }] *)
Definition post (ev : event) (back_ : nat) : option exn * nat :=
  let '(kr, back') := semaphore_signal ev back_ in (MACH_CALL kr, back').

End Apple.

(** ** Semaphore, portable variant (boost::interprocess) *)
Module Portable.

(** [on.wait()] of interprocess_semaphore: returns after the decrement
    or throws interprocess_exception with the native error. *)
Definition wait (ev : event) (on : nat) : option (option exn * nat) :=
  match ev with
  | Fails errno => Some (Some (interprocess_exception errno), on)
  | Undisturbed =>
      match on with
      | 0 => None
      | S n => Some (None, n)
      end
  end.

(** [while (1) { try { on.wait(); break; } catch (e) { if (e.get_native_error() != EINTR) throw; } }] *)
Fixpoint WaitSemaphore (evs : list event) (on : nat) : waited :=
  match evs with
  | [] => Pending
  | ev :: evs' =>
      match wait ev on with
      | None => Suspended
      | Some (None, on') => Acquired on'
      | Some (Some (interprocess_exception native_error as e), on') =>
          if negb (native_error =? EINTR)%Z then Raised e
          else WaitSemaphore evs' on'
      | Some (Some e, _) => Raised e
      end
  end.

End Portable.

(** [n] interruptions in a row. *)
Definition interrupted (n : nat) : list event := replicate n (Fails EINTR).

(** ** Semaphore, as the queues use it

    The queues are "undefined if semaphores throw": they are modelled
    with primitives that meet no failure, which includes the limits the
    platform puts on a counter.  A wait then either takes one unit off a
    positive counter or finds zero and suspends the caller ([None]); a
    post adds one unit. *)
Module Semaphore.

Definition wait (value : nat) : option nat :=
  match Linux.wait [Undisturbed] value with
  | Acquired value' => Some value'
  | _ => None
  end.

Definition post (value : nat) : nat := snd (Linux.post Undisturbed value).

End Semaphore.

Definition WaitSemaphore (semaphore : nat) : option nat := Semaphore.wait semaphore.

(** ** Conversions

    The constructor of the queue takes a [size_t] and hands it to
    [Semaphore(unsigned int value)] ([int] on Mach): the counter starts
    at the value modulo [UINT_MAX + 1], where [unsigned int] has 32
    bits.  (Whether the platform then takes so large a value for a new
    semaphore is a matter of the primitive, as above.) *)
Definition UINT_MAX : N := 4294967295.

Definition narrow (size : nat) : nat := N.to_nat (N.of_nat size mod (UINT_MAX + 1)).
Arguments narrow : simpl never.

(** ** PCQueue *)
Module PCQueue.
Section WithElement.
Context {T : Type} {E : Element T}.

(** Pointers into [storage_] are offsets from [storage_.get()]; [end_]
    is the offset one past the last slot. *)
Record t := mk {
  empty_ : nat;          (* Semaphore: number of empty spaces in storage_ *)
  used_ : nat;           (* Semaphore: number of occupied spaces in storage_ *)
  storage_ : list T;
  end_ : nat;
  produce_at_ : nat;     (* next write *)
  consume_at_ : nat      (* next read *)
}.

Definition set_empty_ (v : nat) (q : t) : t :=
  mk v (used_ q) (storage_ q) (end_ q) (produce_at_ q) (consume_at_ q).
Definition set_used_ (v : nat) (q : t) : t :=
  mk (empty_ q) v (storage_ q) (end_ q) (produce_at_ q) (consume_at_ q).
Definition set_storage_ (s : list T) (q : t) : t :=
  mk (empty_ q) (used_ q) s (end_ q) (produce_at_ q) (consume_at_ q).
Definition set_produce_at_ (p : nat) (q : t) : t :=
  mk (empty_ q) (used_ q) (storage_ q) (end_ q) p (consume_at_ q).
Definition set_consume_at_ (p : nat) (q : t) : t :=
  mk (empty_ q) (used_ q) (storage_ q) (end_ q) (produce_at_ q) p.

(** What [new T[size]] finds: [T] is a class type, whose default
    constructor runs for every slot, or a built-in type (an int, a
    pointer), whose slots are not initialised and hold whatever the
    memory held. *)
Inductive fresh_memory :=
| Constructed
| Raw (content : nat → T).

Definition new_array (mem : fresh_memory) (size : nat) : list T :=
  match mem with
  | Constructed => replicate size T_default
  | Raw content => content <$> seq 0 size
  end.

(** [explicit PCQueue(size_t size)]: [empty_(size)] converts [size] to
    the [unsigned int] of the semaphore's constructor; [storage_] has
    all of [size] slots. *)
Definition PCQueue (mem : fresh_memory) (size : nat) : t :=
  {| empty_ := narrow size; used_ := 0;
     storage_ := new_array mem size;
     end_ := 0 + size;
     produce_at_ := 0;
     consume_at_ := 0 |}.

(** How a call ends.  [x] is the caller's variable ([val] or [out])
    after the call. *)
Inductive outcome :=
| Returns (q : t) (x : T)
| Throws (q : t)            (* the exception of the transfer propagates *)
| Blocks                    (* suspended in WaitSemaphore *)
| Faults.                   (* a cursor outside storage_ *)

(** How a block under one of the two mutexes ends. *)
Inductive guarded :=
| Moved (q : t) (x : T)     (* left at the closing brace *)
| Unwound (q : t)           (* left through catch (...) { post; throw; } *)
| Stray.                    (* a cursor outside storage_ *)

(** [if (++produce_at_ == end_) produce_at_ = storage_.get();] *)
Definition step_produce_at_ (q : t) : t :=
  let q := set_produce_at_ (S (produce_at_ q)) q in
  if produce_at_ q =? end_ q then set_produce_at_ 0 q else q.

(** [if (++consume_at_ == end_) consume_at_ = storage_.get();] *)
Definition step_consume_at_ (q : t) : t :=
  let q := set_consume_at_ (S (consume_at_ q)) q in
  if consume_at_ q =? end_ q then set_consume_at_ 0 q else q.

(** The block of [Produce] under [produce_at_mutex_]. *)
Definition Produce_guarded (val : T) (q : t) : guarded :=
  match storage_ q !! produce_at_ q with
  | None => Stray
  | Some slot =>
      if assign_throws slot val
      then Unwound (set_empty_ (Semaphore.post (empty_ q)) q)
      else Moved (step_produce_at_
                    (set_storage_ (<[produce_at_ q := val]> (storage_ q)) q)) val
  end.

(** The block of [ProduceSwap]: [std::swap( *produce_at_, val)].  The
    slot is left as the swap leaves it, also when the swap throws. *)
Definition ProduceSwap_guarded (val : T) (q : t) : guarded :=
  match storage_ q !! produce_at_ q with
  | None => Stray
  | Some slot =>
      let '(threw, (slot', val')) := std_swap slot val in
      let q := set_storage_ (<[produce_at_ q := slot']> (storage_ q)) q in
      if threw
      then Unwound (set_empty_ (Semaphore.post (empty_ q)) q)
      else Moved (step_produce_at_ q) val'
  end.

(** The block of [Consume] under [consume_at_mutex_]: [out = *consume_at_]. *)
Definition Consume_guarded (out : T) (q : t) : guarded :=
  match storage_ q !! consume_at_ q with
  | None => Stray
  | Some slot =>
      if assign_throws out slot
      then Unwound (set_used_ (Semaphore.post (used_ q)) q)
      else Moved (step_consume_at_ q) slot
  end.

(** The block of [ConsumeSwap]: [std::swap(out, *consume_at_)]. *)
Definition ConsumeSwap_guarded (out : T) (q : t) : guarded :=
  match storage_ q !! consume_at_ q with
  | None => Stray
  | Some slot =>
      let '(threw, (out', slot')) := std_swap out slot in
      let q := set_storage_ (<[consume_at_ q := slot']> (storage_ q)) q in
      if threw
      then Unwound (set_used_ (Semaphore.post (used_ q)) q)
      else Moved (step_consume_at_ q) out'
  end.

(** The four operations: [WaitSemaphore], the guarded block, then the
    post on the other semaphore. *)
Definition Produce (val : T) (q : t) : outcome :=
  match WaitSemaphore (empty_ q) with
  | None => Blocks
  | Some e =>
      match Produce_guarded val (set_empty_ e q) with
      | Stray => Faults
      | Unwound q => Throws q
      | Moved q x => Returns (set_used_ (Semaphore.post (used_ q)) q) x
      end
  end.

Definition ProduceSwap (val : T) (q : t) : outcome :=
  match WaitSemaphore (empty_ q) with
  | None => Blocks
  | Some e =>
      match ProduceSwap_guarded val (set_empty_ e q) with
      | Stray => Faults
      | Unwound q => Throws q
      | Moved q x => Returns (set_used_ (Semaphore.post (used_ q)) q) x
      end
  end.

Definition Consume (out : T) (q : t) : outcome :=
  match WaitSemaphore (used_ q) with
  | None => Blocks
  | Some u =>
      match Consume_guarded out (set_used_ u q) with
      | Stray => Faults
      | Unwound q => Throws q
      | Moved q x => Returns (set_empty_ (Semaphore.post (empty_ q)) q) x
      end
  end.

Definition ConsumeSwap (out : T) (q : t) : outcome :=
  match WaitSemaphore (used_ q) with
  | None => Blocks
  | Some u =>
      match ConsumeSwap_guarded out (set_used_ u q) with
      | Stray => Faults
      | Unwound q => Throws q
      | Moved q x => Returns (set_empty_ (Semaphore.post (empty_ q)) q) x
      end
  end.

(** [T Consume() { T ret; Consume(ret); return ret; }] *)
Definition Consume0 : t → outcome := Consume T_default.

(** *** The steps of a call *)

(** The two sides of the queue.  A producer waits on [empty_] and posts
    [used_]; a consumer waits on [used_] and posts [empty_]. *)
Inductive role := Producer | Consumer.

(** The opening [WaitSemaphore] of a call. *)
Definition enter (r : role) (q : t) : option t :=
  match r with
  | Producer => (λ e, set_empty_ e q) <$> WaitSemaphore (empty_ q)
  | Consumer => (λ u, set_used_ u q) <$> WaitSemaphore (used_ q)
  end.

(** The closing post of a call. *)
Definition leave (r : role) (q : t) : t :=
  match r with
  | Producer => set_used_ (Semaphore.post (used_ q)) q
  | Consumer => set_empty_ (Semaphore.post (empty_ q)) q
  end.

(** The semaphore a call waits on, and the one it posts on return. *)
Definition waits_on (r : role) (q : t) : nat :=
  match r with Producer => empty_ q | Consumer => used_ q end.

Definition posts_on (r : role) (q : t) : nat :=
  match r with Producer => used_ q | Consumer => empty_ q end.

(** The three steps the four operations share: the opening wait, the
    guarded block, the closing post. *)
Definition call (r : role) (block : t → guarded) (q : t) : outcome :=
  match enter r q with
  | None => Blocks
  | Some q1 =>
      match block q1 with
      | Stray => Faults
      | Unwound q2 => Throws q2
      | Moved q2 x => Returns (leave r q2) x
      end
  end.

(** *** Calls in sequence *)

Inductive request :=
| ReqProduce (val : T)
| ReqProduceSwap (val : T)
| ReqConsume (out : T)
| ReqConsumeSwap (out : T).

Definition side (r : request) : role :=
  match r with
  | ReqProduce _ | ReqProduceSwap _ => Producer
  | ReqConsume _ | ReqConsumeSwap _ => Consumer
  end.

Definition block_of (r : request) : t → guarded :=
  match r with
  | ReqProduce val => Produce_guarded val
  | ReqProduceSwap val => ProduceSwap_guarded val
  | ReqConsume out => Consume_guarded out
  | ReqConsumeSwap out => ConsumeSwap_guarded out
  end.

(** The caller's variable of a request, as passed in. *)
Definition payload (r : request) : T :=
  match r with
  | ReqProduce val | ReqProduceSwap val | ReqConsume val | ReqConsumeSwap val => val
  end.

Definition perform (r : request) : t → outcome :=
  match r with
  | ReqProduce val => Produce val
  | ReqProduceSwap val => ProduceSwap val
  | ReqConsume out => Consume out
  | ReqConsumeSwap out => ConsumeSwap out
  end.

(** The values handed to the queue, in call order. *)
Fixpoint produced (rs : list request) : list T :=
  match rs with
  | [] => []
  | (ReqProduce val | ReqProduceSwap val) :: rs' => val :: produced rs'
  | _ :: rs' => produced rs'
  end.

(** The number of consuming calls. *)
Fixpoint consumes (rs : list request) : nat :=
  match rs with
  | [] => 0
  | (ReqConsume _ | ReqConsumeSwap _) :: rs' => S (consumes rs')
  | _ :: rs' => consumes rs'
  end.

(** Runs the calls one after the other, each to its return, and collects
    what the consuming calls obtained.  [None] when a call does not
    return (it blocks, throws or faults). *)
Fixpoint run (rs : list request) (q : t) : option (t * list T) :=
  match rs with
  | [] => Some (q, [])
  | r :: rs' =>
      match perform r q with
      | Returns q' x =>
          match run rs' q' with
          | Some (q'', got) =>
              Some (q'', match side r with Consumer => x :: got | Producer => got end)
          | None => None
          end
      | _ => None
      end
  end.

(** A sequence of calls keeps pace with a queue of [capacity] slots that
    has [pending] items: no consuming call comes before its item, and no
    producing call finds [capacity] items pending. *)
Fixpoint paced (capacity pending : nat) (rs : list request) : bool :=
  match rs with
  | [] => true
  | r :: rs' =>
      match side r with
      | Producer => bool_decide (pending < capacity) && paced capacity (S pending) rs'
      | Consumer =>
          match pending with
          | 0 => false
          | S pending' => paced capacity pending' rs'
          end
      end
  end.

(** The ring holds [items], oldest first: they sit in the slots from
    [consume_at_] on, around the ring, and [produce_at_] is the slot
    after them. *)
Definition ring (q : t) (items : list T) : Prop :=
  length (storage_ q) = end_ q ∧
  length items ≤ end_ q ∧
  (end_ q = 0 ∨ consume_at_ q < end_ q) ∧
  produce_at_ q = (consume_at_ q + length items) `mod` end_ q ∧
  ∀ i x, items !! i = Some x →
         storage_ q !! ((consume_at_ q + i) `mod` end_ q) = Some x.

(** The queue holds [items] and no call is under way: [used_] counts the
    items and [empty_] slots among the others. *)
Definition holds (q : t) (items : list T) : Prop :=
  ring q items ∧
  used_ q = length items ∧
  empty_ q + used_ q ≤ end_ q.

(** *** Threads

    A thread inside a call is before its wait, between the wait and the
    end of its guarded block (it then holds a reserved slot), or before
    its closing post (it still holds the slot: neither semaphore counts
    it).  A guarded block runs as one step: the mutex of its side keeps
    the other threads of that side out, and a block of the other side
    works on another slot and another cursor. *)
Inductive thread :=
| Calling (r : request)
| Holding (r : request)
| Leaving (r : role) (x : T)
| Returned (x : T)
| Threw.

(** Thread [i] takes its next step, if it can. *)
Definition advance (i : nat) (s : t * list thread) : option (t * list thread) :=
  let (q, ts) := s in
  match ts !! i with
  | Some (Calling r) =>
      (λ q', (q', <[i := Holding r]> ts)) <$> enter (side r) q
  | Some (Holding r) =>
      match block_of r q with
      | Moved q' x => Some (q', <[i := Leaving (side r) x]> ts)
      | Unwound q' => Some (q', <[i := Threw]> ts)
      | Stray => None
      end
  | Some (Leaving r x) => Some (leave r q, <[i := Returned x]> ts)
  | _ => None
  end.

Definition step (s s' : t * list thread) : Prop := ∃ i, advance i s = Some s'.

Definition holds_slot (th : thread) : bool :=
  match th with
  | Holding _ | Leaving _ _ => true
  | _ => false
  end.

(** What a thread adds to the count of slots held in flight. *)
Definition weight (th : thread) : nat := if holds_slot th then 1 else 0.

(** The number of operations in flight that hold a reserved slot. *)
Definition in_flight (ts : list thread) : nat := length (filter holds_slot ts).

(** The item the next step of thread [i] writes into the ring or reads
    from it, if that step is a guarded block that runs to its end. *)
Definition moves (i : nat) (s : t * list thread) : option (role * T) :=
  match s.2 !! i with
  | Some (Holding r) =>
      match block_of r s.1 with
      | Moved _ x =>
          Some (side r, match side r with Producer => payload r | Consumer => x end)
      | _ => None
      end
  | _ => None
  end.

(** Runs a schedule: the threads it names take one step each, in turn.
    Collects the values written into the ring and the values read from
    it, each in the order of the steps.  [None] when a thread named
    cannot take a step. *)
Fixpoint execute (schedule : list nat) (s : t * list thread) :
    option (t * list thread * list T * list T) :=
  match schedule with
  | [] => Some (s, [], [])
  | i :: schedule' =>
      match advance i s with
      | None => None
      | Some s' =>
          match execute schedule' s' with
          | None => None
          | Some (s'', written, read) =>
              Some (s'',
                    match moves i s with Some (Producer, x) => x :: written | _ => written end,
                    match moves i s with Some (Consumer, x) => x :: read | _ => read end)
          end
      end
  end.

(** The number of threads in a given state, by side: holding a slot
    reserved by their wait, or past their guarded block and before their
    post. *)
Definition on_side (a b : role) : nat :=
  match a, b with
  | Producer, Producer | Consumer, Consumer => 1
  | _, _ => 0
  end.

Definition holding (side_ : role) (th : thread) : nat :=
  match th with
  | Holding r => on_side (side r) side_
  | _ => 0
  end.

Definition leaving (side_ : role) (th : thread) : nat :=
  match th with
  | Leaving r _ => on_side r side_
  | _ => 0
  end.

Definition tally (f : thread → nat) (ts : list thread) : nat := sum_list (f <$> ts).

(** The state of the queue while calls are under way.  The ring holds
    [items]: the filled slots that [used_] counts, those written by a
    producer that has not posted yet, and those reserved by a consumer
    that has not read yet.  Among the other slots are the free ones that
    [empty_] counts, those reserved by a producer that has not written
    yet, and those read by a consumer that has not posted yet. *)
Definition ring_in_use (s : t * list thread) (items : list T) : Prop :=
  ring s.1 items ∧
  used_ s.1 + tally (leaving Producer) s.2 + tally (holding Consumer) s.2 = length items ∧
  empty_ s.1 + tally (holding Producer) s.2 + tally (leaving Consumer) s.2 + length items
    ≤ end_ s.1.

(** *** Objects handed back

    The swapping calls copy nothing: each leaves the caller's object in
    a slot and hands the slot's object to the caller. *)
Definition swapping (r : request) : bool :=
  match r with
  | ReqProduceSwap _ | ReqConsumeSwap _ => true
  | ReqProduce _ | ReqConsume _ => false
  end.

(** Runs the calls one after the other, each to its return, and collects
    the caller's variable after each call, whichever its side. *)
Fixpoint replies (rs : list request) (q : t) : option (t * list T) :=
  match rs with
  | [] => Some (q, [])
  | r :: rs' =>
      match perform r q with
      | Returns q' x =>
          match replies rs' q' with
          | Some (q'', xs) => Some (q'', x :: xs)
          | None => None
          end
      | _ => None
      end
  end.

End WithElement.
Arguments t : clear implicits.
Arguments request : clear implicits.
Arguments thread : clear implicits.
Arguments outcome : clear implicits.
Arguments guarded : clear implicits.
Arguments fresh_memory : clear implicits.
End PCQueue.

(** ** UnboundedSingleQueue *)
Module UnboundedSingleQueue.
Section WithElement.
Context {T : Type} {E : Element T}.

(** [sizeof(to->entries) / sizeof(T)] for [T entries[1023]]. *)
Definition entries_count : nat := 1023.

(** A page of the chain.  Pages live in a free store and are named by
    their address; [next] is [None] for [nullptr]. *)
Record UnboundedPage := mkPage {
  next : option nat;
  entries : list T
}.

(** [UnboundedPage() : next(nullptr) {}] *)
Definition UnboundedPage_new : UnboundedPage :=
  {| next := None; entries := replicate entries_count T_default |}.

(** A [T*] into a page: the page's address and an offset into its
    [entries]. *)
Definition cursor : Type := nat * nat.

Record t := mk {
  store : gmap nat UnboundedPage;   (* the pages that exist *)
  allocated : nat;                  (* pages handed out by new so far *)
  valid_ : nat;                     (* Semaphore *)
  filling_ : nat;
  reading_ : option nat;            (* unique_ptr *)
  filling_current_ : cursor;
  filling_end_ : cursor;
  reading_current_ : cursor;
  reading_end_ : cursor
}.

Definition set_store (m : gmap nat UnboundedPage) (q : t) : t :=
  mk m (allocated q) (valid_ q) (filling_ q) (reading_ q)
     (filling_current_ q) (filling_end_ q) (reading_current_ q) (reading_end_ q).
Definition set_valid_ (v : nat) (q : t) : t :=
  mk (store q) (allocated q) v (filling_ q) (reading_ q)
     (filling_current_ q) (filling_end_ q) (reading_current_ q) (reading_end_ q).
Definition set_filling_current_ (c : cursor) (q : t) : t :=
  mk (store q) (allocated q) (valid_ q) (filling_ q) (reading_ q)
     c (filling_end_ q) (reading_current_ q) (reading_end_ q).
Definition set_reading_current_ (c : cursor) (q : t) : t :=
  mk (store q) (allocated q) (valid_ q) (filling_ q) (reading_ q)
     (filling_current_ q) (filling_end_ q) c (reading_end_ q).

(** [new UnboundedPage<T>()]: a fresh address and the store with the new
    page in it. *)
Definition new_page (q : t) : nat * t :=
  (allocated q,
   mk (<[allocated q := UnboundedPage_new]> (store q)) (S (allocated q)) (valid_ q)
      (filling_ q) (reading_ q)
      (filling_current_ q) (filling_end_ q) (reading_current_ q) (reading_end_ q)).

Definition SetFilling (to : nat) (q : t) : t :=
  mk (store q) (allocated q) (valid_ q) to (reading_ q)
     (to, 0) (to, 0 + entries_count) (reading_current_ q) (reading_end_ q).

(** [reading_.reset(to)] deletes the page owned so far. *)
Definition SetReading (to : nat) (q : t) : t :=
  mk (match reading_ q with
      | Some old => delete old (store q)
      | None => store q
      end)
     (allocated q) (valid_ q) (filling_ q) (Some to)
     (filling_current_ q) (filling_end_ q) (to, 0) (to, 0 + entries_count).

(** The state the member initialisers leave before the constructor's
    body runs: no page yet. *)
Definition blank : t :=
  mk ∅ 0 0 0 None (0, 0) (0, 0) (0, 0) (0, 0).

(** [UnboundedSingleQueue() : valid_(0)] *)
Definition UnboundedSingleQueue : t :=
  let (page, q) := new_page blank in
  let q := SetFilling page q in
  SetReading (filling_ q) q.

Inductive outcome :=
| Returns (q : t) (x : T)
| Throws (q : t)
| Blocks                    (* suspended in WaitSemaphore *)
| Faults.                   (* a null or dangling page, or an offset past its entries *)

(** The entry a cursor points to. *)
Definition deref (c : cursor) (q : t) : option T :=
  store q !! c.1 ≫= λ page, entries page !! c.2.

(** Writes the entry a cursor points to. *)
Definition poke (c : cursor) (x : T) (q : t) : t :=
  set_store (alter (λ page, mkPage (next page) (<[c.2 := x]> (entries page))) c.1 (store q)) q.

(** The [if] of [Produce]: a new page when the filling page is full. *)
Definition grow (q : t) : option t :=
  if decide (filling_current_ q = filling_end_ q) then
    let (page, q) := new_page q in
    (* filling_->next = next *)
    match store q !! filling_ q with
    | None => None
    | Some full =>
        Some (SetFilling page
                (set_store (<[filling_ q := mkPage (Some page) (entries full)]> (store q)) q))
    end
  else Some q.

Definition Produce (val : T) (q : t) : outcome :=
  match grow q with
  | None => Faults
  | Some q =>
      (* *(filling_current_++) = val *)
      let at_ := filling_current_ q in
      let q := set_filling_current_ (at_.1, S at_.2) q in
      match deref at_ q with
      | None => Faults
      | Some slot =>
          if assign_throws slot val then Throws q
          else Returns (set_valid_ (Semaphore.post (valid_ q)) (poke at_ val q)) val
      end
  end.

(** The [if] of [Consume]: on to the next page when the reading page is
    drained. *)
Definition turn (q : t) : option t :=
  if decide (reading_current_ q = reading_end_ q) then
    (* SetReading(reading_->next) *)
    match reading_ q ≫= λ r, store q !! r with
    | None => None
    | Some drained =>
        match next drained with
        | None => None
        | Some to => Some (SetReading to q)
        end
    end
  else Some q.

Definition Consume (out : T) (q : t) : outcome :=
  match WaitSemaphore (valid_ q) with
  | None => Blocks
  | Some v =>
      match turn (set_valid_ v q) with
      | None => Faults
      | Some q =>
          (* out = *(reading_current_++) *)
          let at_ := reading_current_ q in
          let q := set_reading_current_ (at_.1, S at_.2) q in
          match deref at_ q with
          | None => Faults
          | Some slot =>
              if assign_throws out slot then Throws q else Returns q slot
          end
      end
  end.

(** *** Calls in sequence *)

Inductive request :=
| ReqProduce (val : T)
| ReqConsume (out : T).

Definition perform (r : request) : t → outcome :=
  match r with
  | ReqProduce val => Produce val
  | ReqConsume out => Consume out
  end.

(** The values handed to the queue, in call order. *)
Fixpoint produced (rs : list request) : list T :=
  match rs with
  | [] => []
  | ReqProduce val :: rs' => val :: produced rs'
  | ReqConsume _ :: rs' => produced rs'
  end.

Fixpoint produces (rs : list request) : nat :=
  match rs with
  | [] => 0
  | ReqProduce _ :: rs' => S (produces rs')
  | ReqConsume _ :: rs' => produces rs'
  end.

Fixpoint consumes (rs : list request) : nat :=
  match rs with
  | [] => 0
  | ReqProduce _ :: rs' => consumes rs'
  | ReqConsume _ :: rs' => S (consumes rs')
  end.

(** Runs the calls one after the other, each to its return, and collects
    what the [Consume] calls obtained.  [None] when a call does not
    return. *)
Fixpoint run (rs : list request) (q : t) : option (t * list T) :=
  match rs with
  | [] => Some (q, [])
  | r :: rs' =>
      match perform r q with
      | Returns q' x =>
          match run rs' q' with
          | Some (q'', got) =>
              Some (q'', match r with ReqConsume _ => x :: got | ReqProduce _ => got end)
          | None => None
          end
      | _ => None
      end
  end.

(** The state a call leaves behind, whether it returns or throws. *)
Definition after (o : outcome) : option t :=
  match o with
  | Returns q _ | Throws q => Some q
  | _ => None
  end.

(** The number of entries of the filling page written so far:
    [filling_current_ - filling_->entries]. *)
Definition written (q : t) : nat := (filling_current_ q).2.

(** The number of entries of the reading page read so far:
    [reading_current_ - reading_->entries]. *)
Definition drained (q : t) : nat := (reading_current_ q).2.

(** The pages from [page] to [last] are linked in the store, at rising
    addresses, and [items] are their entries from offset [from] of the
    first page up to offset [upto] of the last. *)
Inductive span (m : gmap nat UnboundedPage) :
    nat → nat → nat → nat → list T → Prop :=
| span_last last from upto pg :
    m !! last = Some pg →
    length (entries pg) = entries_count →
    from ≤ upto ≤ entries_count →
    span m last from last upto (take (upto - from) (drop from (entries pg)))
| span_link page from last upto pg page' items :
    m !! page = Some pg →
    length (entries pg) = entries_count →
    from ≤ entries_count →
    next pg = Some page' →
    page < page' →
    span m page' 0 last upto items →
    span m page from last upto (drop from (entries pg) ++ items).

(** Every page of a store has [entries_count] entries. *)
Definition uniform_store (m : gmap nat UnboundedPage) : Prop :=
  ∀ a pg, m !! a = Some pg → length (entries pg) = entries_count.

(** The queue holds [items], oldest first. *)
Definition holds (q : t) (items : list T) : Prop :=
  ∃ r, reading_ q = Some r ∧
       (reading_current_ q).1 = r ∧
       reading_end_ q = (r, entries_count) ∧
       (filling_current_ q).1 = filling_ q ∧
       filling_end_ q = (filling_ q, entries_count) ∧
       filling_ q < allocated q ∧
       valid_ q = length items ∧
       span (store q) r (reading_current_ q).2 (filling_ q) (filling_current_ q).2 items.

(** *** One producer and one consumer

    "Only one producer and one consumer": the two threads meet at
    [valid_] only.  [Produce] is its writing part and then its post;
    [Consume] is its wait and then its reading part.  Each part runs as
    one step. *)

(** [Produce] up to its post: the [if] and the assignment. *)
Definition Produce_write (val : T) (q : t) : outcome :=
  match grow q with
  | None => Faults
  | Some q =>
      (* *(filling_current_++) = val *)
      let at_ := filling_current_ q in
      let q := set_filling_current_ (at_.1, S at_.2) q in
      match deref at_ q with
      | None => Faults
      | Some slot =>
          if assign_throws slot val then Throws q else Returns (poke at_ val q) val
      end
  end.

(** [Consume] after its wait: the [if] and the assignment. *)
Definition Consume_read (out : T) (q : t) : outcome :=
  match turn q with
  | None => Faults
  | Some q =>
      (* out = *(reading_current_++) *)
      let at_ := reading_current_ q in
      let q := set_reading_current_ (at_.1, S at_.2) q in
      match deref at_ q with
      | None => Faults
      | Some slot =>
          if assign_throws out slot then Throws q else Returns q slot
      end
  end.

(** A step of the producer ([Write], [Post]) or of the consumer ([Wait],
    [Read]). *)
Inductive move :=
| Write (val : T)
| Post
| Wait
| Read (out : T).

(** The queue, and whether the producer is between its assignment and
    its post, and the consumer between its wait and its assignment. *)
Record duo := mkDuo {
  queue : t;
  posting : bool;
  reading : bool
}.

(** One step, if the thread is at that step and can take it, and the
    value the step read, if it is a [Read]. *)
Definition act (m : move) (s : duo) : option (duo * list T) :=
  match m with
  | Write val =>
      if posting s then None
      else match Produce_write val (queue s) with
           | Returns q _ => Some (mkDuo q true (reading s), [])
           | _ => None
           end
  | Post =>
      if posting s
      then Some (mkDuo (set_valid_ (Semaphore.post (valid_ (queue s))) (queue s))
                       false (reading s), [])
      else None
  | Wait =>
      if reading s then None
      else match WaitSemaphore (valid_ (queue s)) with
           | Some v => Some (mkDuo (set_valid_ v (queue s)) (posting s) true, [])
           | None => None
           end
  | Read out =>
      if reading s
      then match Consume_read out (queue s) with
           | Returns q x => Some (mkDuo q (posting s) false, [x])
           | _ => None
           end
      else None
  end.

(** Runs the steps in turn and collects the values read.  [None] when a
    step named cannot be taken. *)
Fixpoint play (ms : list move) (s : duo) : option (duo * list T) :=
  match ms with
  | [] => Some (s, [])
  | m :: ms' =>
      match act m s with
      | None => None
      | Some (s', xs) =>
          match play ms' s' with
          | None => None
          | Some (s'', got) => Some (s'', xs ++ got)
          end
      end
  end.

(** The values written, in the order of the steps, and the number of
    posts. *)
Fixpoint writes (ms : list move) : list T :=
  match ms with
  | [] => []
  | Write val :: ms' => val :: writes ms'
  | _ :: ms' => writes ms'
  end.

Fixpoint posts (ms : list move) : nat :=
  match ms with
  | [] => 0
  | Post :: ms' => S (posts ms')
  | _ :: ms' => posts ms'
  end.

(** What a thread inside a call adds to the items not yet counted out
    of [valid_]. *)
Definition inside (b : bool) : nat := if b then 1 else 0.

(** The pages of a store are those with addresses from [first] to
    [last]; each is linked to the page made after it, and the last one
    to none. *)
Definition linked (m : gmap nat UnboundedPage) (first last : nat) : Prop :=
  (∀ a, is_Some (m !! a) ↔ first ≤ a ≤ last) ∧
  ∀ a pg, m !! a = Some pg →
          next pg = if decide (a = last) then None else Some (S a).

(** The pages alive are those from the reading page to the filling
    page, which is the last one made. *)
Definition chained (q : t) : Prop :=
  ∃ r, reading_ q = Some r ∧
       r ≤ filling_ q ∧ S (filling_ q) = allocated q ∧
       linked (store q) r (filling_ q).

(** The queue of the two threads holds [items]: [valid_] counts them
    but for the one the producer has written and not posted, and the one
    the consumer has waited for and not read. *)
Definition paired (s : duo) (items : list T) : Prop :=
  holds (set_valid_ (length items) (queue s)) items ∧
  valid_ (queue s) + inside (posting s) + inside (reading s) = length items.

End WithElement.
Arguments t : clear implicits.
Arguments request : clear implicits.
Arguments outcome : clear implicits.
Arguments UnboundedPage : clear implicits.
Arguments move : clear implicits.
Arguments duo : clear implicits.
End UnboundedSingleQueue.

(** * Properties *)

#[export] Instance nat_nothrow : Nothrow nat.
Proof. split; reflexivity. Qed.

(** ** Semaphores *)
Section Semaphore_facts.

Lemma linux_wait_interrupted n evs value :
  Linux.wait (interrupted n ++ evs) value = Linux.wait evs value.
Proof. induction n as [|n IH]; [done|]. cbn. exact IH. Qed.

Lemma portable_wait_interrupted n evs on :
  Portable.WaitSemaphore (interrupted n ++ evs) on = Portable.WaitSemaphore evs on.
Proof. induction n as [|n IH]; [done|]. cbn. exact IH. Qed.

(** A wait that returns has met interruptions only, then an undisturbed
    call that took one unit off the counter. *)
Lemma linux_wait_acquired evs value value' :
  Linux.wait evs value = Acquired value' →
  value = S value' ∧ ∃ n rest, evs = interrupted n ++ Undisturbed :: rest.
Proof.
  induction evs as [|ev evs IH]; [done|].
  destruct ev as [|errno].
  - destruct value as [|v]; cbn; [done|].
    intros [= <-]. split; [done|]. by exists 0, evs.
  - cbn. destruct (errno =? EINTR)%Z eqn:E; cbn; [|done].
    apply Z.eqb_eq in E as ->.
    intros [-> (n & rest & ->)]%IH. split; [done|]. by exists (S n), rest.
Qed.

Lemma portable_wait_acquired evs on on' :
  Portable.WaitSemaphore evs on = Acquired on' →
  on = S on' ∧ ∃ n rest, evs = interrupted n ++ Undisturbed :: rest.
Proof.
  induction evs as [|ev evs IH]; [done|].
  destruct ev as [|errno].
  - destruct on as [|v]; cbn; [done|].
    intros [= <-]. split; [done|]. by exists 0, evs.
  - cbn. destruct (errno =? EINTR)%Z eqn:E; cbn; [|done].
    apply Z.eqb_eq in E as ->.
    intros [-> (n & rest & ->)]%IH. split; [done|]. by exists (S n), rest.
Qed.

(** Without a failure of the primitive the three variants do the same:
    they take one unit off a positive counter and sleep on zero. *)
Lemma wait_undisturbed value :
  Linux.wait [Undisturbed] value = Apple.wait Undisturbed value ∧
  Portable.WaitSemaphore [Undisturbed] value = Apple.wait Undisturbed value.
Proof. by destruct value. Qed.

(** The Apple variant has no loop and no errno: whatever result other
    than KERN_SUCCESS the Mach call reports, the wait throws. *)
Lemma apple_wait_raises kr value :
  kr ≠ Apple.KERN_SUCCESS →
  Apple.wait (Fails kr) value = Raised (Exception "Mach call failure").
Proof.
  intros Hkr. unfold Apple.wait, Apple.semaphore_wait, Apple.MACH_CALL, UTIL_THROW_IF.
  destruct (Z.eqb_spec Apple.KERN_SUCCESS kr) as [Heq|_]; [by destruct Hkr|done].
Qed.

(** C7.  [Semaphore::wait] (Linux) and [WaitSemaphore] (portable variant)
    retry as long as the blocking call fails with EINTR: after any number
    [n] of interruptions, an undisturbed call on a positive counter makes
    the wait return with the counter one lower, and on a zero counter
    leaves the caller asleep.  A wait returns only that way: exactly one
    unit was taken.  A failure with any other error number raises the
    exception to the caller, with the counter untouched and the events
    that follow never looked at. *)
Theorem wait_retries_on_EINTR (n : nat) (rest : list event) (value : nat) (errno : Z) :
  errno ≠ EINTR →
  (Linux.wait (interrupted n ++ Undisturbed :: rest) (S value) = Acquired value ∧
   Linux.wait (interrupted n ++ Undisturbed :: rest) 0 = Suspended ∧
   Linux.wait (interrupted n ++ Fails errno :: rest) value
     = Raised (ErrnoException errno "Wait for semaphore failed") ∧
   ∀ evs value', Linux.wait evs value = Acquired value' →
     value = S value' ∧ ∃ m rest', evs = interrupted m ++ Undisturbed :: rest') ∧
  (Portable.WaitSemaphore (interrupted n ++ Undisturbed :: rest) (S value) = Acquired value ∧
   Portable.WaitSemaphore (interrupted n ++ Undisturbed :: rest) 0 = Suspended ∧
   Portable.WaitSemaphore (interrupted n ++ Fails errno :: rest) value
     = Raised (interprocess_exception errno) ∧
   ∀ evs on', Portable.WaitSemaphore evs value = Acquired on' →
     value = S on' ∧ ∃ m rest', evs = interrupted m ++ Undisturbed :: rest').
Proof.
  intros Hne. apply Z.eqb_neq in Hne.
  split; (split; [|split; [|split]]).
  - by rewrite linux_wait_interrupted.
  - by rewrite linux_wait_interrupted.
  - rewrite linux_wait_interrupted. cbn. by rewrite Hne.
  - intros evs value'. apply linux_wait_acquired.
  - by rewrite portable_wait_interrupted.
  - by rewrite portable_wait_interrupted.
  - rewrite portable_wait_interrupted. cbn. by rewrite Hne.
  - intros evs on'. apply portable_wait_acquired.
Qed.

(** Two interruptions, then EINVAL (22) or an undisturbed call. *)
Lemma wait_retries_on_EINTR_witness :
  Linux.wait [Fails EINTR; Fails EINTR; Undisturbed] 3 = Acquired 2 ∧
  Linux.wait [Fails EINTR; Fails EINTR; Fails 22%Z] 3
    = Raised (ErrnoException 22 "Wait for semaphore failed") ∧
  Portable.WaitSemaphore [Fails EINTR; Fails EINTR; Undisturbed] 3 = Acquired 2 ∧
  Portable.WaitSemaphore [Fails EINTR; Fails EINTR; Fails 22%Z] 3
    = Raised (interprocess_exception 22).
Proof.
  destruct (wait_retries_on_EINTR 2 [] 2 22%Z) as [(L1 & _ & _ & _) (P1 & _ & _ & _)];
    [done|].
  destruct (wait_retries_on_EINTR 2 [] 3 22%Z) as [(_ & _ & L3 & _) (_ & _ & P3 & _)];
    [done|].
  exact (conj L1 (conj L3 (conj P1 P3))).
Defined.

(** C6.  When the destruction of the underlying resource fails, the
    program aborts and no exception leaves the destructor, in both
    variants.  The Linux destructor writes its message and the text of
    errno to std::cerr and calls abort(), whatever errno is.  The body
    of the Apple destructor writes nothing and throws [Exception]
    through [MACH_CALL], on KERN_FAILURE (5) as on every result other
    than KERN_SUCCESS; the destructor being [noexcept], the exception
    does not leave it: it ends the program through std::terminate(),
    whose handler has the exception and its message to report before
    it aborts.  A destruction that succeeds ends quietly. *)
Theorem destructor_on_failure (what : Z → string) (errno kr : Z) :
  kr ≠ Apple.KERN_SUCCESS →
  Linux.destroy what (-1) errno
    = LoggedAbort ["Could not destroy semaphore "%string; what errno] ∧
  Apple.destroy kr = Terminated (Exception "Mach call failure") ∧
  (∀ r e, Linux.destroy what r errno ≠ Raises e) ∧
  (∀ kr' e, Apple.destroy kr' ≠ Raises e) ∧
  Linux.destroy what 0 errno = Destroyed ∧
  Apple.destroy Apple.KERN_SUCCESS = Destroyed.
Proof.
  intros Hkr. split_and!; try done.
  - unfold Apple.destroy, Apple.MACH_CALL, UTIL_THROW_IF.
    destruct (Z.eqb_spec Apple.KERN_SUCCESS kr) as [Heq|_]; [by destruct Hkr|done].
  - intros r e. unfold Linux.destroy. by case_match.
  - intros kr' e. unfold Apple.destroy. by case_match.
Qed.

End Semaphore_facts.

(** errno EBUSY (16) on Linux, KERN_FAILURE (5) on Mach. *)
Lemma destructor_on_failure_witness :
  let what := λ _ : Z, "Device or resource busy"%string in
  Linux.destroy what (-1) 16
    = LoggedAbort ["Could not destroy semaphore "%string; what 16%Z] ∧
  Apple.destroy 5 = Terminated (Exception "Mach call failure").
Proof.
  intros what.
  destruct (destructor_on_failure what 16 5) as (Hlinux & Happle & _); [done|].
  exact (conj Hlinux Happle).
Defined.

Section Semaphore_variants.

(** X1.  The Apple [Semaphore] makes one Mach call per operation and has
    no loop around it.  Whatever result other than KERN_SUCCESS the call
    reports, an interruption included, [wait], [WaitSemaphore] and
    [post] throw [Exception] and leave the counter as it was; nothing is
    tried again.  A call that succeeds takes one unit off a positive
    counter, sleeps on zero, or adds one unit. *)
Theorem apple_semaphore_single_call (kr : Z) (value : nat) :
  kr ≠ Apple.KERN_SUCCESS →
  Apple.semaphore_wait (Fails kr) value = Some (kr, value) ∧
  Apple.wait (Fails kr) value = Raised (Exception "Mach call failure") ∧
  Apple.WaitSemaphore (Fails kr) value = Raised (Exception "Mach call failure") ∧
  Apple.post (Fails kr) value = (Some (Exception "Mach call failure"), value) ∧
  Apple.WaitSemaphore Undisturbed (S value) = Acquired value ∧
  Apple.WaitSemaphore Undisturbed 0 = Suspended ∧
  Apple.post Undisturbed value = (None, S value).
Proof.
  intros Hkr.
  assert (Apple.MACH_CALL kr = Some (Exception "Mach call failure")) as Hcall.
  { unfold Apple.MACH_CALL, UTIL_THROW_IF.
    destruct (Z.eqb_spec Apple.KERN_SUCCESS kr) as [Heq|_]; [by destruct Hkr|done]. }
  unfold Apple.WaitSemaphore, Apple.wait, Apple.post. cbn [Apple.semaphore_wait Apple.semaphore_signal].
  rewrite Hcall. by split_and!.
Qed.

(** X2.  [post] on Linux.  A sem_post that fails makes [post] throw
    [ErrnoException] with the error number, and the counter keeps its
    value.  One that succeeds adds the unit that the next wait takes:
    that wait returns, after any number of interruptions, and the
    counter is back at its value from before the post.  On a zero
    counter a wait sleeps until such a post. *)
Theorem linux_post_then_wait (n : nat) (rest : list event) (value : nat) (errno : Z) :
  Linux.post (Fails errno) value
    = (Some (ErrnoException errno "Could not post to semaphore"), value) ∧
  Linux.post Undisturbed value = (None, S value) ∧
  Linux.WaitSemaphore (interrupted n ++ Undisturbed :: rest) (Linux.post Undisturbed value).2
    = Acquired value ∧
  Linux.WaitSemaphore (interrupted n ++ Undisturbed :: rest) (Linux.post (Fails errno) 0).2
    = Suspended.
Proof.
  unfold Linux.WaitSemaphore. split_and!; try done;
    by rewrite linux_wait_interrupted.
Qed.

End Semaphore_variants.

(** An interrupted wait on Mach reports KERN_ABORTED (14). *)
Lemma apple_semaphore_single_call_witness :
  Apple.WaitSemaphore (Fails 14%Z) 3 = Raised (Exception "Mach call failure") ∧
  Apple.post (Fails 14%Z) 3 = (Some (Exception "Mach call failure"), 3).
Proof.
  destruct (apple_semaphore_single_call 14%Z 3) as (_ & _ & Hwait & Hpost & _); [done|].
  exact (conj Hwait Hpost).
Defined.

(** ** std::swap *)
Section Swap_facts.
Context {T : Type} {E : Element T}.

(** A swap that does not throw exchanges its operands; one that throws
    leaves the second operand as it was, and the first one as it was or
    holding the value of the second. *)
Lemma std_swap_cases (a b : T) :
  std_swap a b = (false, (b, a)) ∨
  std_swap a b = (true, (a, b)) ∨
  std_swap a b = (true, (b, b)).
Proof. unfold std_swap. repeat case_match; auto. Qed.

Lemma std_swap_nothrow `{!Nothrow T} (a b : T) : std_swap a b = (false, (b, a)).
Proof. unfold std_swap. by rewrite copy_nothrow, !assign_nothrow. Qed.

End Swap_facts.

(** ** Conversions *)
Section Narrow_facts.

Lemma narrow_le size : narrow size ≤ size.
Proof.
  unfold narrow. pose proof (N.Div0.mod_le (N.of_nat size) (UINT_MAX + 1)). lia.
Qed.

(** A size that an [unsigned int] can hold goes through unchanged. *)
Lemma narrow_small size : (N.of_nat size ≤ UINT_MAX)%N → narrow size = size.
Proof.
  intros Hsize. unfold narrow. rewrite N.mod_small by lia. apply Nat2N.id.
Qed.

(** A larger one does not: 2^32 + 2 becomes 2. *)
Lemma narrow_wraps : narrow (N.to_nat 4294967298) = 2.
Proof. unfold narrow. rewrite N2Nat.id. reflexivity. Qed.

End Narrow_facts.

(** ** The bounded queue *)
Section PCQueue_facts.
Import PCQueue.
Context {T : Type} {E : Element T}.

Lemma wait_some n m : WaitSemaphore n = Some m ↔ n = S m.
Proof. destruct n; cbn; [done|]. split; congruence. Qed.

Lemma enter_producer (q q1 : t T) :
  enter Producer q = Some q1 ↔ ∃ e, empty_ q = S e ∧ q1 = set_empty_ e q.
Proof.
  cbn. destruct (empty_ q) as [|e]; cbn.
  - split; [done|]. by intros (? & ? & _).
  - split; [intros [= <-]; by exists e|]. by intros (? & [= <-] & ->).
Qed.

Lemma enter_consumer (q q1 : t T) :
  enter Consumer q = Some q1 ↔ ∃ u, used_ q = S u ∧ q1 = set_used_ u q.
Proof.
  cbn. destruct (used_ q) as [|u]; cbn.
  - split; [done|]. by intros (? & ? & _).
  - split; [intros [= <-]; by exists u|]. by intros (? & [= <-] & ->).
Qed.

(** Each operation is the three steps of its side around its block. *)
Lemma perform_call r (q : t T) : perform r q = call (side r) (block_of r) q.
Proof.
  destruct r; cbn [perform side block_of];
    unfold Produce, ProduceSwap, Consume, ConsumeSwap, call, enter;
    by destruct (WaitSemaphore _).
Qed.

(** A guarded block that runs to its end: what it leaves in the caller's
    variable and in the queue. *)
Lemma block_moved r (q q' : t T) x :
  block_of r q = Moved q' x →
  match r with
  | ReqProduce val =>
      x = val ∧
      q' = step_produce_at_ (set_storage_ (<[produce_at_ q := val]> (storage_ q)) q)
  | ReqProduceSwap val =>
      storage_ q !! produce_at_ q = Some x ∧
      q' = step_produce_at_ (set_storage_ (<[produce_at_ q := val]> (storage_ q)) q)
  | ReqConsume out =>
      storage_ q !! consume_at_ q = Some x ∧ q' = step_consume_at_ q
  | ReqConsumeSwap out =>
      storage_ q !! consume_at_ q = Some x ∧
      q' = step_consume_at_ (set_storage_ (<[consume_at_ q := out]> (storage_ q)) q)
  end.
Proof.
  destruct r as [val|val|out|out]; cbn [block_of];
    unfold Produce_guarded, ProduceSwap_guarded, Consume_guarded, ConsumeSwap_guarded.
  - destruct (storage_ q !! produce_at_ q) as [slot|]; [|done].
    destruct (assign_throws slot val); [done|]. by intros [= <- <-].
  - destruct (storage_ q !! produce_at_ q) as [slot|]; [|done].
    destruct (std_swap_cases slot val) as [->|[->| ->]]; [|done..].
    by intros [= <- <-].
  - destruct (storage_ q !! consume_at_ q) as [slot|]; [|done].
    destruct (assign_throws out slot); [done|]. by intros [= <- <-].
  - destruct (storage_ q !! consume_at_ q) as [slot|]; [|done].
    destruct (std_swap_cases out slot) as [->|[->| ->]]; [|done..].
    by intros [= <- <-].
Qed.

Lemma set_storage_same (q : t T) i x :
  storage_ q !! i = Some x → set_storage_ (<[i := x]> (storage_ q)) q = q.
Proof. intros Hx. destruct q. unfold set_storage_. cbn in *. by rewrite list_insert_id. Qed.

(** A guarded block that unwinds has posted the semaphore its call
    waited on.  Only that of [ProduceSwap] can have changed a slot: the
    one at [produce_at_], which then holds the caller's value. *)
Lemma block_unwound r (q q' : t T) :
  block_of r q = Unwound q' →
  match r with
  | ReqProduce _ => q' = set_empty_ (S (empty_ q)) q
  | ReqProduceSwap val =>
      q' = set_empty_ (S (empty_ q)) q ∨
      q' = set_empty_ (S (empty_ q))
             (set_storage_ (<[produce_at_ q := val]> (storage_ q)) q)
  | ReqConsume _ | ReqConsumeSwap _ => q' = set_used_ (S (used_ q)) q
  end.
Proof.
  destruct r as [val|val|out|out]; cbn [block_of];
    unfold Produce_guarded, ProduceSwap_guarded, Consume_guarded, ConsumeSwap_guarded.
  - destruct (storage_ q !! produce_at_ q) as [slot|]; [|done].
    destruct (assign_throws slot val); [|done]. by intros [= <-].
  - destruct (storage_ q !! produce_at_ q) as [slot|] eqn:Hslot; [|done].
    destruct (std_swap_cases slot val) as [->|[->| ->]]; [done| |];
      intros [= <-]; [left|right]; [|done].
    by rewrite (set_storage_same q _ _ Hslot).
  - destruct (storage_ q !! consume_at_ q) as [slot|]; [|done].
    destruct (assign_throws out slot); [|done]. by intros [= <-].
  - destruct (storage_ q !! consume_at_ q) as [slot|] eqn:Hslot; [|done].
    destruct (std_swap_cases out slot) as [->|[->| ->]]; [done| |];
      intros [= <-]; by rewrite (set_storage_same q _ _ Hslot).
Qed.

(** A call that throws had passed its wait, and its block unwound. *)
Lemma throws_inv r (q q' : t T) :
  perform r q = Throws q' →
  ∃ q1, enter (side r) q = Some q1 ∧ block_of r q1 = Unwound q'.
Proof.
  rewrite perform_call. unfold call.
  destruct (enter (side r) q) as [q1|]; [|done].
  destruct (block_of r q1) eqn:Hblock; [done| |done].
  intros [= <-]. by exists q1.
Qed.

(** A guarded block that unwinds puts back the unit its call took off
    the semaphore; but for the slot a [ProduceSwap] can have changed,
    the queue is as it was before the call. *)
Lemma unwound_restores r (q q1 q2 : t T) :
  enter (side r) q = Some q1 → block_of r q1 = Unwound q2 →
  q2 = q ∨
  ∃ val, r = ReqProduceSwap val ∧
         q2 = set_storage_ (<[produce_at_ q := val]> (storage_ q)) q.
Proof.
  intros Hin Hblock%block_unwound. destruct q as [e u s n p c].
  destruct r as [val|val|out|out]; cbn [side] in Hin;
    [apply enter_producer in Hin|apply enter_producer in Hin
    |apply enter_consumer in Hin|apply enter_consumer in Hin];
    destruct Hin as (k & Hk & ->); cbn in Hk; first [subst e|subst u];
    cbn in Hblock.
  - by left.
  - destruct Hblock as [->| ->]; [by left|right; by exists val].
  - by left.
  - by left.
Qed.

(** A guarded block that runs to its end touches no semaphore. *)
Lemma moved_counters r (q q' : t T) x :
  block_of r q = Moved q' x → empty_ q' = empty_ q ∧ used_ q' = used_ q ∧ end_ q' = end_ q.
Proof.
  intros Hblock%block_moved.
  destruct r; destruct Hblock as [_ ->];
    unfold step_produce_at_, step_consume_at_; cbn -[Nat.eqb]; by case_match.
Qed.

(** One that unwinds posts the semaphore its call waited on, once. *)
Lemma unwound_counters r (q q' : t T) :
  block_of r q = Unwound q' →
  waits_on (side r) q' = S (waits_on (side r) q) ∧
  posts_on (side r) q' = posts_on (side r) q ∧
  end_ q' = end_ q.
Proof.
  intros Hblock%block_unwound.
  destruct r; [|destruct Hblock as [Hblock|Hblock]| |]; by subst.
Qed.

Lemma waits_posts r (q : t T) : waits_on r q + posts_on r q = empty_ q + used_ q.
Proof. destruct r; cbn; lia. Qed.

End PCQueue_facts.

Section PCQueue_ring.
Import PCQueue.
Context {T : Type} {E : Element T}.

(** Two numbers less than [n] apart with the same remainder are equal. *)
Lemma mod_window n a b : a ≤ b < a + n → a `mod` n = b `mod` n → a = b.
Proof.
  intros Hab Hmod.
  pose proof (Nat.div_mod_eq a n) as Ha. pose proof (Nat.div_mod_eq b n) as Hb.
  rewrite Hmod in Ha.
  assert (a `div` n = b `div` n) by nia. nia.
Qed.

Lemma succ_mod n p : p < n → (if S p =? n then 0 else S p) = (p + 1) `mod` n.
Proof.
  intros Hp. destruct (Nat.eqb_spec (S p) n) as [<-|Hne].
  - replace (p + 1) with (S p) by lia. by rewrite Nat.Div0.mod_same.
  - rewrite Nat.mod_small; lia.
Qed.

Lemma length_new_array (mem : fresh_memory T) size : length (new_array mem size) = size.
Proof. destruct mem; cbn; by rewrite ?length_replicate, ?length_fmap, ?length_seq. Qed.

Lemma ring_fresh mem k : ring (PCQueue mem k) [].
Proof.
  unfold ring, PCQueue. cbn. rewrite length_new_array.
  split_and!; try lia; [|done].
  by rewrite Nat.Div0.mod_0_l.
Qed.

Lemma holds_fresh mem k : holds (PCQueue mem k) [].
Proof. split; [apply ring_fresh|]. cbn. pose proof (narrow_le k). lia. Qed.

(** The semaphores have no part in [ring]. *)
Lemma ring_enter r (q q1 : t T) items : enter r q = Some q1 → ring q1 items ↔ ring q items.
Proof.
  destruct r; [intros (? & _ & ->)%enter_producer|intros (? & _ & ->)%enter_consumer];
    reflexivity.
Qed.

Lemma ring_leave r (q : t T) items : ring (leave r q) items ↔ ring q items.
Proof. destruct r; reflexivity. Qed.

(** The guarded block of a producing call, run to its end on a ring
    with a slot to spare, appends the value handed over. *)
Lemma ring_produce r (q q' : t T) x items :
  side r = Producer → ring q items → length items < end_ q →
  block_of r q = Moved q' x →
  ring q' (items ++ [payload r]) ∧ end_ q' = end_ q.
Proof.
  intros Hside (Hlen & _ & Hc & Hp & Hitems) Hroom Hblock.
  destruct q as [e u s n p c]. cbn in Hlen, Hc, Hp, Hitems, Hroom.
  destruct Hc as [->|Hc]; [lia|].
  assert (p < n) as Hpn by (subst p; apply Nat.mod_upper_bound; lia).
  assert (q' = mk e u (<[p := payload r]> s) n (if S p =? n then 0 else S p) c) as ->.
  { apply block_moved in Hblock.
    destruct r as [val|val| |]; try done; destruct Hblock as [_ ->];
      unfold step_produce_at_; cbn -[Nat.eqb]; by destruct (S p =? n). }
  split; [|done].
  unfold ring. cbn -[Nat.eqb Nat.modulo]. rewrite length_insert, length_app.
  cbn -[Nat.eqb Nat.modulo].
  split_and!; try lia.
  - rewrite succ_mod by done. subst p.
    rewrite Nat.Div0.add_mod_idemp_l. f_equal. lia.
  - intros i y Hi.
    destruct (decide (i < length items)) as [Hlt|Hge].
    + rewrite lookup_app_l in Hi by done.
      rewrite list_lookup_insert_ne; [by apply Hitems|].
      subst p. intros Heq. symmetry in Heq. apply mod_window in Heq; lia.
    + assert (i = length items) as ->.
      { apply lookup_lt_Some in Hi. rewrite length_app in Hi. cbn in Hi. lia. }
      rewrite lookup_app_r, Nat.sub_diag in Hi by done. cbn in Hi.
      injection Hi as <-. rewrite <- Hp. apply list_lookup_insert_eq. lia.
Qed.

(** The guarded block of a consuming call, run to its end on a ring
    that holds an item, hands the oldest item over. *)
Lemma ring_consume r (q q' : t T) x y items :
  side r = Consumer → ring q (y :: items) →
  block_of r q = Moved q' x →
  x = y ∧ ring q' items ∧ end_ q' = end_ q.
Proof.
  intros Hside (Hlen & Hfit & Hc & Hp & Hitems) Hblock.
  destruct q as [e u s n p c]. cbn in Hlen, Hfit, Hc, Hp, Hitems.
  destruct Hc as [->|Hc]; [lia|].
  assert (s !! c = Some y) as Hslot.
  { specialize (Hitems 0 y eq_refl). by rewrite Nat.add_0_r, Nat.mod_small in Hitems. }
  assert (x = y ∧ ∃ s', q' = mk e u s' n p (if S c =? n then 0 else S c)
                        ∧ length s' = length s
                        ∧ ∀ j, j ≠ c → s' !! j = s !! j) as (-> & s' & -> & Hlen' & Hother).
  { apply block_moved in Hblock.
    destruct r as [| |out|out]; try done; destruct Hblock as [Hx ->];
      cbn in Hx; rewrite Hslot in Hx; injection Hx as <-; (split; [done|]);
      unfold step_consume_at_; cbn -[Nat.eqb];
      [exists s|exists (<[c := out]> s)];
      (split; [by destruct (S c =? n)|]);
      (split; [by rewrite ?length_insert|by intros; rewrite ?list_lookup_insert_ne]). }
  split; [done|]. split; [|done].
  unfold ring. cbn -[Nat.eqb Nat.modulo].
  split_and!; try lia.
  - right. destruct (Nat.eqb_spec (S c) n); lia.
  - rewrite succ_mod by done. subst p.
    rewrite Nat.Div0.add_mod_idemp_l. f_equal. cbn. lia.
  - intros i z Hi. rewrite succ_mod by done.
    rewrite Nat.Div0.add_mod_idemp_l.
    assert (S i < n). { apply lookup_lt_Some in Hi. lia. }
    rewrite Hother.
    + replace (c + 1 + i) with (c + S i) by lia. by apply Hitems.
    + intros Heq. rewrite <- (Nat.mod_small c n) in Heq at 2 by done.
      symmetry in Heq. apply mod_window in Heq; lia.
Qed.

(** Writing the slot at [produce_at_] of a ring with a slot to spare
    touches none of its items. *)
Lemma ring_free_slot (q : t T) items x :
  ring q items → length items < end_ q →
  ring (set_storage_ (<[produce_at_ q := x]> (storage_ q)) q) items.
Proof.
  intros (Hlen & Hfit & Hc & Hp & Hitems) Hroom.
  destruct q as [e u s n p c]. cbn in *.
  destruct Hc as [->|Hc]; [lia|].
  unfold ring. cbn. rewrite length_insert. split_and!; try done; [by right|].
  intros i y Hi. apply lookup_lt_Some in Hi as Hlt.
  rewrite list_lookup_insert_ne; [by apply Hitems|].
  subst p. intros Heq. symmetry in Heq. apply mod_window in Heq; lia.
Qed.

End PCQueue_ring.

Section PCQueue_fifo.
Import PCQueue.
Context {T : Type} {E : Element T} {NT : Nothrow T}.

(** With elements that do not throw, a guarded block whose cursor is
    inside [storage_] runs to its end. *)
Lemma block_moves r (q : t T) :
  match side r with Producer => produce_at_ q | Consumer => consume_at_ q end
    < length (storage_ q) →
  ∃ q' x, block_of r q = Moved q' x.
Proof.
  intros [slot Hslot]%lookup_lt_is_Some_2.
  destruct r; cbn in *;
    unfold Produce_guarded, ProduceSwap_guarded, Consume_guarded, ConsumeSwap_guarded;
    rewrite Hslot, ?assign_nothrow, ?std_swap_nothrow; by eexists _, _.
Qed.

Lemma holds_produce r (q : t T) items :
  side r = Producer → holds q items → 0 < empty_ q →
  ∃ q' x, perform r q = Returns q' x ∧ holds q' (items ++ [payload r]) ∧
          end_ q' = end_ q ∧ empty_ q' + used_ q' = empty_ q + used_ q.
Proof.
  intros Hside (Hring & Hused & Hsum) Hfree.
  assert (length items < end_ q) as Hroom by lia.
  destruct (empty_ q) as [|e] eqn:Hempty; [lia|].
  assert (enter (side r) q = Some (set_empty_ e q)) as Hin.
  { rewrite Hside. apply enter_producer. by exists e. }
  destruct (block_moves r (set_empty_ e q)) as (q2 & x & Hblock).
  { rewrite Hside. destruct Hring as (Hlen & _ & Hc & Hp & _). cbn. rewrite Hlen, Hp.
    apply Nat.mod_upper_bound. lia. }
  apply (ring_enter _ _ _ _ Hin) in Hring.
  destruct (ring_produce r _ q2 x items Hside Hring Hroom Hblock) as [Hring2 Hend].
  apply moved_counters in Hblock as Hsame. destruct Hsame as (He & Hu & _).
  exists (leave (side r) q2), x. rewrite perform_call. unfold call.
  rewrite Hin, Hblock. split; [done|]. rewrite Hside.
  cbn in Hend, He, Hu. split; [|split; [done|cbn; lia]].
  split; [by apply ring_leave|]. cbn. rewrite length_app. cbn. lia.
Qed.

Lemma holds_consume r (q : t T) x items :
  side r = Consumer → holds q (x :: items) →
  ∃ q', perform r q = Returns q' x ∧ holds q' items ∧
        end_ q' = end_ q ∧ empty_ q' + used_ q' = empty_ q + used_ q.
Proof.
  intros Hside (Hring & Hused & Hsum). cbn [length] in Hused.
  assert (enter (side r) q = Some (set_used_ (length items) q)) as Hin.
  { rewrite Hside. apply enter_consumer. by exists (length items). }
  destruct (block_moves r (set_used_ (length items) q)) as (q2 & y & Hblock).
  { rewrite Hside. destruct Hring as (Hlen & Hfit & Hc & _). cbn in *. lia. }
  apply (ring_enter _ _ _ _ Hin) in Hring.
  destruct (ring_consume r _ q2 y x items Hside Hring Hblock) as (-> & Hring2 & Hend).
  apply moved_counters in Hblock as Hsame. destruct Hsame as (He & Hu & _).
  exists (leave (side r) q2). rewrite perform_call. unfold call.
  rewrite Hin, Hblock. split; [done|]. rewrite Hside.
  cbn in Hend, He, Hu. split; [|split; [done|cbn in *; lia]].
  split; [by apply ring_leave|]. cbn in *. lia.
Qed.

End PCQueue_fifo.

Section PCQueue_rollback.
Import PCQueue.
Context {T : Type} {E : Element T}.

Lemma enter_counters r (q q1 : t T) :
  enter r q = Some q1 →
  S (waits_on r q1) = waits_on r q ∧ posts_on r q1 = posts_on r q ∧
  produce_at_ q1 = produce_at_ q ∧ consume_at_ q1 = consume_at_ q ∧
  storage_ q1 = storage_ q ∧ end_ q1 = end_ q.
Proof.
  destruct r; [intros (m & Hm & ->)%enter_producer|intros (m & Hm & ->)%enter_consumer];
    by cbn.
Qed.

(** C2.  When the assignment or swap of a call throws, the call had
    taken one unit off the semaphore it waits on, its guarded block was
    left through the handler, and the exception propagates from a state
    with both counters and both cursors as before the call, and with
    the items the queue held.  After [Produce], [Consume] and
    [ConsumeSwap] it is the state before the call, and any later call
    does what it would have done had the failed call never been made.
    After [ProduceSwap] it is that state or, when the swap threw in its
    last assignment, that state with the caller's value in the free
    slot at [produce_at_]: the handler posts [empty_] and leaves the
    slot as the swap left it. *)
Theorem failed_transfer_rolls_back (r : request T) (q q' : t T) :
  perform r q = Throws q' →
  (∃ q1, enter (side r) q = Some q1 ∧
         S (waits_on (side r) q1) = waits_on (side r) q ∧
         block_of r q1 = Unwound q') ∧
  waits_on (side r) q' = waits_on (side r) q ∧
  posts_on (side r) q' = posts_on (side r) q ∧
  produce_at_ q' = produce_at_ q ∧ consume_at_ q' = consume_at_ q ∧
  end_ q' = end_ q ∧
  (∀ items, holds q items → holds q' items) ∧
  match r with
  | ReqProduceSwap val =>
      q' = q ∨ q' = set_storage_ (<[produce_at_ q := val]> (storage_ q)) q
  | _ => q' = q ∧ ∀ r', perform r' q' = perform r' q
  end.
Proof.
  intros (q1 & Hin & Hblock)%throws_inv.
  apply enter_counters in Hin as Hcount. destruct Hcount as (Hunit & _).
  split. { by exists q1. }
  destruct (unwound_restores r q q1 q' Hin Hblock) as [->|(val & -> & ->)].
  - split_and!; try done. destruct r; auto.
  - cbn [side] in *. split_and!; try done; [|by right].
    intros items (Hring & Hused & Hsum). cbn [waits_on] in Hunit.
    split; [|done]. apply ring_free_slot; [done|lia].
Qed.

End PCQueue_rollback.

(** A queue of brittle elements with one item: [Produce(None)] throws
    and the queue is as it was.  A new queue of sealed elements:
    [ProduceSwap(None)] throws in its last assignment, and the free slot
    holds the caller's value. *)
Lemma failed_transfer_rolls_back_witness :
  (let q := PCQueue.mk 1 1 [Some 7; Some 0] 2 1 0 in
   PCQueue.Produce (E:=brittle) None q = PCQueue.Throws q ∧
   ∃ q1, PCQueue.enter PCQueue.Producer q = Some q1 ∧
         PCQueue.empty_ q1 = 0 ∧
         PCQueue.Produce_guarded (E:=brittle) None q1 = PCQueue.Unwound q) ∧
  (let q := PCQueue.PCQueue (E:=sealed) PCQueue.Constructed 1 in
   let q' := PCQueue.mk 1 0 [None] 1 0 0 in
   PCQueue.storage_ q = [Some 0] ∧
   PCQueue.ProduceSwap (E:=sealed) None q = PCQueue.Throws q' ∧
   PCQueue.empty_ q' = PCQueue.empty_ q ∧ PCQueue.produce_at_ q' = PCQueue.produce_at_ q).
Proof.
  split.
  - intros q.
    split; [reflexivity|].
    destruct (failed_transfer_rolls_back (E:=brittle) (PCQueue.ReqProduce None) q q eq_refl)
      as ((q1 & Hin & Hunit & Hblock) & _).
    exists q1. split; [exact Hin|]. split; [|exact Hblock].
    exact (eq_add_S _ _ Hunit).
  - intros q q'.
    assert (PCQueue.ProduceSwap (E:=sealed) None q = PCQueue.Throws q') as Hthrow
      by reflexivity.
    destruct (failed_transfer_rolls_back (E:=sealed) (PCQueue.ReqProduceSwap None) q q'
                Hthrow) as (_ & Hempty & _ & Hcursor & _).
    split; [reflexivity|]. split; [exact Hthrow|]. split; [exact Hempty|exact Hcursor].
Defined.

(** What a failed [ProduceSwap] leaves behind shows in the calls that
    follow.  On a new queue of one slot of sealed elements,
    [ProduceSwap(None)] throws; had it not been made, [ProduceSwap] of
    the value 5 would return with the default-constructed element of
    the slot; after it, that call throws too, for the slot holds
    [None]. *)
Example failed_ProduceSwap_keeps_slot :
  let q := PCQueue.PCQueue (E:=sealed) PCQueue.Constructed 1 in
  let q' := PCQueue.mk 1 0 [None] 1 0 0 in
  PCQueue.ProduceSwap (E:=sealed) None q = PCQueue.Throws q' ∧
  q' ≠ q ∧
  PCQueue.storage_ q' ≠ PCQueue.storage_ q ∧
  (∃ q2, PCQueue.ProduceSwap (E:=sealed) (Some 5) q = PCQueue.Returns q2 (Some 0)) ∧
  PCQueue.ProduceSwap (E:=sealed) (Some 5) q' = PCQueue.Throws q'.
Proof.
  intros q q'. split_and!; [reflexivity|done|done|by eexists|reflexivity].
Qed.

Section PCQueue_returned.
Import PCQueue.
Context {T : Type} {E : Element T}.

Lemma produced_producer (r : request T) rs :
  side r = Producer → produced (r :: rs) = payload r :: produced rs.
Proof. by destruct r. Qed.

Lemma produced_consumer (r : request T) rs :
  side r = Consumer → produced (r :: rs) = produced rs ∧ consumes (r :: rs) = S (consumes rs).
Proof. by destruct r. Qed.

Lemma consumes_producer (r : request T) rs :
  side r = Producer → consumes (r :: rs) = consumes rs.
Proof. by destruct r. Qed.

(** A call that returns, whatever the elements: a producing call has
    appended its value, a consuming call has obtained the oldest item. *)
Lemma holds_perform r (q q' : t T) x items :
  holds q items → perform r q = Returns q' x →
  match side r with
  | Producer => holds q' (items ++ [payload r])
  | Consumer => ∃ rest, items = x :: rest ∧ holds q' rest
  end.
Proof.
  intros (Hring & Hused & Hsum). rewrite perform_call. unfold call.
  destruct (enter (side r) q) as [q1|] eqn:Hin; [|done].
  destruct (block_of r q1) as [q2 y| |] eqn:Hblock; try done.
  intros [= <- <-].
  apply (ring_enter _ _ _ items) in Hin as Hsame. apply Hsame in Hring.
  apply moved_counters in Hblock as Hcount. destruct Hcount as (He & Hu & Hn).
  destruct (side r) eqn:Hside.
  - apply enter_producer in Hin as (e & Hempty & ->). cbn in He, Hu, Hn.
    destruct (ring_produce r _ q2 y items Hside Hring) as [Hring2 _]; [cbn; lia|done|].
    split; [by apply ring_leave|]. cbn. rewrite length_app. cbn. lia.
  - apply enter_consumer in Hin as (u & Hfilled & ->). cbn in He, Hu, Hn.
    destruct items as [|z rest]; [cbn in Hused; lia|].
    destruct (ring_consume r _ q2 y z rest Hside Hring Hblock) as (-> & Hring2 & _).
    exists rest. split; [done|].
    split; [by apply ring_leave|]. cbn in *. lia.
Qed.


End PCQueue_returned.

Section PCQueue_runs.
Import PCQueue.
Context {T : Type} {E : Element T} {NT : Nothrow T}.

(** A sequence of calls paced by what the two semaphores count runs to
    its end on a queue that holds [items]; what it consumes followed by
    what is left is what was there followed by what it produced. *)
Lemma run_paced c rs : ∀ (q : t T) items,
  holds q items → empty_ q + used_ q = c → paced c (length items) rs = true →
  ∃ q' got rest,
    run rs q = Some (q', got) ∧ holds q' rest ∧ empty_ q' + used_ q' = c ∧
    end_ q' = end_ q ∧
    items ++ produced rs = got ++ rest ∧ length got = consumes rs.
Proof.
  induction rs as [|r rs IH]; intros q items Hq Hc Hpaced.
  - exists q, [], items. by rewrite app_nil_r.
  - cbn [paced] in Hpaced. destruct (side r) eqn:Hside.
    + apply andb_prop in Hpaced as [Hroom%bool_decide_eq_true Hpaced].
      destruct (holds_produce r q items) as (q1 & x & Hrun & Hq1 & Hend & Hsum);
        [done|done|destruct Hq as (_ & ? & _); lia|].
      destruct (IH q1 (items ++ [payload r]))
        as (q' & got & rest & Hrs & ? & ? & ? & Heq & ?);
        [done|congruence|by rewrite length_app, Nat.add_1_r|].
      exists q', got, rest. cbn [run]. rewrite Hrun, Hrs, Hside.
      rewrite produced_producer, consumes_producer by done.
      split_and!; try done; [congruence|]. by rewrite <- Heq, <- app_assoc.
    + destruct items as [|x items]; [done|]. cbn [length] in Hpaced.
      destruct (holds_consume r q x items) as (q1 & Hrun & Hq1 & Hend & Hsum); [done..|].
      destruct (IH q1 items) as (q' & got & rest & Hrs & ? & ? & ? & Heq & ?);
        [done|congruence|done|].
      exists q', (x :: got), rest. cbn [run]. rewrite Hrun, Hrs, Hside.
      destruct (produced_consumer r rs Hside) as [-> ->].
      split_and!; try done; [congruence|cbn; by f_equal..].
Qed.


End PCQueue_runs.



Section PCQueue_threads.
Import PCQueue.
Context {T : Type} {E : Element T}.

Lemma in_flight_cons (th : thread T) ts : in_flight (th :: ts) = weight th + in_flight ts.
Proof.
  unfold in_flight, weight. rewrite filter_cons.
  destruct (holds_slot th); by case_decide.
Qed.

(** Replacing a thread's state moves the count by the difference of the
    two states. *)
Lemma in_flight_insert (ts : list (thread T)) i th th' :
  ts !! i = Some th →
  in_flight (<[i := th']> ts) + weight th = in_flight ts + weight th'.
Proof.
  revert i. induction ts as [|t0 ts IH]; intros [|i] Hi; try done.
  - injection Hi as ->.
    change (<[0:=th']> (th :: ts)) with (th' :: ts). rewrite !in_flight_cons. lia.
  - apply (IH i) in Hi.
    change (<[S i:=th']> (t0 :: ts)) with (t0 :: <[i:=th']> ts).
    rewrite !in_flight_cons. lia.
Qed.

Lemma in_flight_calling (rs : list (request T)) : in_flight (Calling <$> rs) = 0.
Proof.
  induction rs as [|r rs IH]; [done|].
  cbn [fmap list_fmap]. by rewrite in_flight_cons.
Qed.

(** The sum of the two counters and the slots held in flight is the
    same before and after every step of every thread. *)
Lemma advance_accounted i (q q' : t T) ts ts' :
  advance i (q, ts) = Some (q', ts') →
  empty_ q' + used_ q' + in_flight ts' = empty_ q + used_ q + in_flight ts.
Proof.
  cbn. destruct (ts !! i) as [[r|r|ro x| |]|] eqn:Hi; try done.
  - destruct (enter (side r) q) as [q1|] eqn:Hin; [|done].
    intros [= <- <-]. pose proof (in_flight_insert ts i _ (Holding r) Hi) as Hw.
    cbn in Hw.
    destruct (side r); [apply enter_producer in Hin|apply enter_consumer in Hin];
      destruct Hin as (m & Hm & ->); cbn; lia.
  - destruct (block_of r q) as [q1 x|q1|] eqn:Hblock; [| |done]; intros [= <- <-].
    + pose proof (in_flight_insert ts i _ (Leaving (side r) x) Hi) as Hw. cbn in Hw.
      apply moved_counters in Hblock. lia.
    + pose proof (in_flight_insert ts i _ Threw Hi) as Hw. cbn in Hw.
      apply unwound_counters in Hblock.
      pose proof (waits_posts (side r) q). pose proof (waits_posts (side r) q1). lia.
  - intros [= <- <-]. pose proof (in_flight_insert ts i _ (Returned x) Hi) as Hw.
    cbn in Hw. destruct ro; cbn; lia.
Qed.

(** A call that returns is the three steps of its thread. *)
Lemma call_in_steps r (q q' : t T) x :
  perform r q = Returns q' x →
  ∃ q1 q2,
    advance 0 (q, [Calling r]) = Some (q1, [Holding r]) ∧
    advance 0 (q1, [Holding r]) = Some (q2, [Leaving (side r) x]) ∧
    advance 0 (q2, [Leaving (side r) x]) = Some (q', [Returned x]).
Proof.
  rewrite perform_call. unfold call.
  destruct (enter (side r) q) as [q1|] eqn:Hin; [|done].
  destruct (block_of r q1) as [q2 y| |] eqn:Hblock; try done.
  intros [= <- <-]. exists q1, q2. cbn. by rewrite Hin, Hblock.
Qed.

(** A call that returns or throws leaves the sum of the two counters as
    it found it. *)
Lemma perform_accounted r (q q' : t T) :
  (∃ x, perform r q = Returns q' x) ∨ perform r q = Throws q' →
  empty_ q' + used_ q' = empty_ q + used_ q.
Proof.
  intros [[x Hret]|Hthrow].
  - apply call_in_steps in Hret as (q1 & q2 & H1 & H2 & H3).
    apply advance_accounted in H1, H2, H3.
    change (in_flight [Calling r]) with 0 in *.
    change (in_flight [Holding r]) with 1 in *.
    change (in_flight [Leaving (side r) x]) with 1 in *.
    change (in_flight [Returned x]) with 0 in *. lia.
  - apply throws_inv in Hthrow as (q1 & Hin & Hblock).
    apply unwound_counters in Hblock as (Hwaits & Hposts & _).
    pose proof (waits_posts (side r) q). pose proof (waits_posts (side r) q').
    destruct (side r); [apply enter_producer in Hin|apply enter_consumer in Hin];
      destruct Hin as (m & Hm & ->); cbn in *; lia.
Qed.

(** C8.  A queue constructed with size [k] has [k] slots, 0 on the
    filled-slots semaphore [used_], and on the free-slots semaphore
    [empty_] what the conversion of [k] to unsigned int leaves: [k]
    itself as long as an unsigned int holds it, and 2 for 2^32 + 2.  In
    every state that threads running any calls can reach from there, by
    any interleaving of their steps, the two counters and the number of
    operations in flight that hold a reserved slot add up to the value
    [empty_] started with; a call that has run to its end, by return or
    by exception, leaves the sum of the two counters as it found it. *)
Theorem slots_accounted (mem : fresh_memory T) (k : nat) (rs : list (request T))
    (s : t T * list (thread T)) :
  rtc step (PCQueue mem k, Calling <$> rs) s →
  (empty_ (PCQueue mem k) = narrow k ∧ used_ (PCQueue mem k) = 0 ∧
   length (storage_ (PCQueue mem k)) = k) ∧
  empty_ s.1 + used_ s.1 + in_flight s.2 = narrow k ∧
  (∀ r q', (∃ x, perform r s.1 = Returns q' x) ∨ perform r s.1 = Throws q' →
           empty_ q' + used_ q' + in_flight s.2 = narrow k) ∧
  ((N.of_nat k ≤ UINT_MAX)%N → narrow k = k) ∧
  (empty_ (PCQueue mem (N.to_nat 4294967298)) = 2 ∧
   length (storage_ (PCQueue mem (N.to_nat 4294967298))) = N.to_nat 4294967298).
Proof.
  intros Hreach.
  split. { split_and!; [done..|]. apply length_new_array. }
  assert (∀ a b : t T * list (thread T), rtc step a b →
            empty_ b.1 + used_ b.1 + in_flight b.2
            = empty_ a.1 + used_ a.1 + in_flight a.2) as Hinv.
  { induction 1 as [|[q ts] [q1 ts1] c [i Hstep] _ IH]; [done|].
    rewrite IH. by apply advance_accounted with i. }
  assert (empty_ s.1 + used_ s.1 + in_flight s.2 = narrow k) as Hs.
  { rewrite (Hinv _ _ Hreach). cbn [fst snd]. rewrite in_flight_calling. cbn. lia. }
  split; [done|]. split.
  { intros r q' Hcall%perform_accounted. lia. }
  split; [apply narrow_small|].
  split; [apply narrow_wraps|apply length_new_array].
Qed.

End PCQueue_threads.

(** One slot; the producer has passed its wait and written the slot but
    not yet posted: both counters are zero and one slot is in flight. *)
Lemma slots_accounted_witness :
  let s0 := (PCQueue.PCQueue PCQueue.Constructed 1,
             PCQueue.Calling <$> [PCQueue.ReqProduce 5; PCQueue.ReqConsume 0]) in
  let s2 := (PCQueue.mk 0 0 [5] 1 0 0,
             [PCQueue.Leaving PCQueue.Producer 5; PCQueue.Calling (PCQueue.ReqConsume 0)]) in
  rtc PCQueue.step s0 s2 ∧
  PCQueue.empty_ s2.1 + PCQueue.used_ s2.1 + PCQueue.in_flight s2.2 = 1.
Proof.
  intros s0 s2.
  assert (rtc PCQueue.step s0 s2) as Hreach.
  { eapply rtc_l; [by exists 0|]. eapply rtc_l; [by exists 0|]. apply rtc_refl. }
  split; [exact Hreach|].
  exact (proj1 (proj2 (slots_accounted PCQueue.Constructed 1 _ s2 Hreach))).
Defined.


Section PCQueue_backpressure.
Import PCQueue.
Context {T : Type} {E : Element T} {NT : Nothrow T}.

Lemma paced_produce k (vs : list T) : ∀ pending,
  pending + length vs ≤ k → paced k pending (ReqProduce <$> vs) = true.
Proof.
  induction vs as [|v vs IH]; intros pending Hle; [done|].
  cbn in *. rewrite bool_decide_eq_true_2 by lia. apply IH. lia.
Qed.

Lemma produced_fmap (vs : list T) :
  produced (ReqProduce <$> vs) = vs ∧ consumes (ReqProduce <$> vs) = 0.
Proof. induction vs as [|v vs [IH1 IH2]]; [done|]. cbn. by rewrite IH1. Qed.

(** As many [Produce] calls as [empty_] was constructed with all return
    and leave it at zero. *)
Lemma fill_up mem k (vs : list T) :
  length vs = narrow k →
  ∃ full, run (ReqProduce <$> vs) (PCQueue mem k) = Some (full, []) ∧
          holds full vs ∧ empty_ full = 0 ∧ end_ full = k.
Proof.
  intros Hvs.
  destruct (run_paced (narrow k) (ReqProduce <$> vs) (PCQueue mem k) [])
    as (q & got & rest & Hrun & Hq & Hsum & Hend & Heq & Hlen);
    [apply holds_fresh|cbn; lia|apply paced_produce; cbn; lia|].
  destruct (produced_fmap vs) as [Hvs' Hnone]. rewrite Hvs', Hnone in *.
  apply nil_length_inv in Hlen as ->. cbn in Heq. subst rest.
  exists q. split_and!; [done..| |done].
  destruct Hq as (_ & Hused & _). lia.
Qed.

(** A thread about to enter a producing call cannot move while [empty_]
    is zero. *)
Lemma producer_parked (q : t T) ts j :
  empty_ q = 0 →
  (∀ th, ts !! j = Some th → ∃ r, th = Calling r ∧ side r = Producer) →
  advance j (q, ts) = None.
Proof.
  intros Hfull Hj. cbn. destruct (ts !! j) as [th|]; [|done].
  destruct (Hj th eq_refl) as (r & -> & Hside). rewrite Hside. cbn.
  by rewrite Hfull.
Qed.

Lemma advance_calling (q q1 : t T) ts i r :
  ts !! i = Some (Calling r) → enter (side r) q = Some q1 →
  advance i (q, ts) = Some (q1, <[i := Holding r]> ts).
Proof. intros Hi Hin. cbn. by rewrite Hi, Hin. Qed.

(** C3.  A new queue constructed with size [k] takes as many [Produce]
    calls as [empty_] was constructed with, the conversion of [k] to
    unsigned int: that is [k] for every [k] an unsigned int holds, and 2
    for 2^32 + 2.  After that many [Produce] calls and no [Consume],
    [empty_] is zero and a further [Produce] blocks.  With a consumer as
    thread 0 and producers [ps] pending as threads 1, 2, ...: no
    producer can take a step before the consumer has gone through its
    wait, its guarded block and its post on [empty_]; after that post
    any one pending producer passes its wait, which brings [empty_] back
    to zero, and no other producer can take a step then. *)
Theorem backpressure (mem : fresh_memory T) (k : nat) (vs ps : list T) (out : T) :
  length vs = narrow k → 0 < narrow k →
  ((N.of_nat k ≤ UINT_MAX)%N → length vs = k) ∧
  narrow (N.to_nat 4294967298) = 2 ∧
  ∃ full,
    run (ReqProduce <$> vs) (PCQueue mem k) = Some (full, []) ∧
    empty_ full = 0 ∧ length (storage_ full) = k ∧
    (∀ v, Produce v full = Blocks) ∧
    let pool := Calling (ReqConsume out) :: (Calling ∘ ReqProduce <$> ps) in
    (∀ i, 0 < i → advance i (full, pool) = None) ∧
    ∃ s1 s2 s3,
      advance 0 (full, pool) = Some s1 ∧
      advance 0 s1 = Some s2 ∧
      advance 0 s2 = Some s3 ∧
      (∀ i, 0 < i → advance i s1 = None ∧ advance i s2 = None) ∧
      empty_ s3.1 = 1 ∧
      ∀ i, 0 < i ≤ length ps →
        ∃ s4, advance i s3 = Some s4 ∧ empty_ s4.1 = 0 ∧
              ∀ j, 0 < j → j ≠ i → advance j s4 = None.
Proof.
  intros Hvs Hk.
  split. { intros Hsmall. by rewrite Hvs, narrow_small. }
  split; [apply narrow_wraps|].
  destruct (fill_up mem k vs Hvs) as (full & Hrun & Hfull & Hempty & Hend).
  destruct vs as [|x vs]; [cbn in Hvs; lia|].
  exists full. split; [done|]. split; [done|].
  split. { destruct Hfull as ((? & _) & _). congruence. }
  split. { intros v. unfold Produce. by rewrite Hempty. }
  intros pool.
  assert (∀ th0 j th, 0 < j → <[0 := th0]> pool !! j = Some th →
            ∃ r, th = Calling r ∧ side r = Producer) as Hpool.
  { intros th0 [|j] th Hj; [lia|].
    change (<[0:=th0]> pool !! S j) with ((Calling ∘ ReqProduce <$> ps) !! j).
    rewrite list_lookup_fmap. destruct (ps !! j); [|done].
    intros [= <-]. by eexists. }
  split.
  { intros i Hi. apply producer_parked; [done|].
    intros th. by apply (Hpool (Calling (ReqConsume out))). }
  destruct Hfull as ((Hlen & _ & Hc & Hp & Hitems) & Hused & Hsum).
  destruct Hc as [Hc|Hc]; [pose proof (narrow_le k); lia|].
  assert (storage_ full !! consume_at_ full = Some x) as Hslot.
  { specialize (Hitems 0 x eq_refl). by rewrite Nat.add_0_r, Nat.mod_small in Hitems. }
  set (q1 := set_used_ (length vs) full).
  set (q2 := step_consume_at_ q1).
  exists (q1, <[0 := Holding (ReqConsume out)]> pool),
         (q2, <[0 := Leaving Consumer x]> pool),
         (leave Consumer q2, <[0 := Returned x]> pool).
  assert (empty_ q2 = 0) as Hempty2.
  { unfold q2, q1, step_consume_at_. cbn -[Nat.eqb]. by case_match. }
  split_and!.
  - cbn. by rewrite Hused.
  - cbn -[Nat.eqb]. unfold Consume_guarded. cbn -[Nat.eqb].
    by rewrite Hslot, assign_nothrow.
  - done.
  - intros i Hi. split; (apply producer_parked; [done|]); intros th; apply Hpool; done.
  - cbn -[Nat.eqb]. by rewrite Hempty2.
  - intros i [Hi Hle]. cbn [fst snd].
    destruct i as [|i]; [lia|].
    destruct (lookup_lt_is_Some_2 ps i) as [p Hpi]; [lia|].
    exists (set_empty_ 0 (leave Consumer q2),
            <[S i := Holding (ReqProduce p)]> (<[0 := Returned x]> pool)).
    split_and!.
    + apply advance_calling.
      * change (<[0:=Returned x]> pool !! S i) with ((Calling ∘ ReqProduce <$> ps) !! i).
        by rewrite list_lookup_fmap, Hpi.
      * cbn -[Nat.eqb]. by rewrite Hempty2.
    + done.
    + intros j Hj Hji. apply producer_parked; [done|].
      intros th. rewrite list_lookup_insert_ne by done. by apply Hpool.
Qed.

End PCQueue_backpressure.

(** Two slots filled, a consumer and two pending producers; and a queue
    of 2^32 + 2 slots, which is full with two of them filled. *)
Lemma backpressure_witness :
  (∃ full, PCQueue.run (PCQueue.ReqProduce <$> [1; 2])
             (PCQueue.PCQueue PCQueue.Constructed 2) = Some (full, []) ∧
           PCQueue.empty_ full = 0 ∧
           PCQueue.Produce 3 full = PCQueue.Blocks) ∧
  (∃ full, PCQueue.run (PCQueue.ReqProduce <$> [1; 2])
             (PCQueue.PCQueue PCQueue.Constructed (N.to_nat 4294967298)) = Some (full, []) ∧
           length (PCQueue.storage_ full) = N.to_nat 4294967298 ∧
           PCQueue.Produce 3 full = PCQueue.Blocks).
Proof.
  split.
  - destruct (backpressure PCQueue.Constructed 2 [1; 2] [3; 4] 0 eq_refl (Nat.lt_0_succ 1))
      as (_ & _ & full & Hrun & Hempty & _ & Hblocks & _).
    exists full. exact (conj Hrun (conj Hempty (Hblocks 3))).
  - destruct (backpressure PCQueue.Constructed (N.to_nat 4294967298) [1; 2] [3; 4] 0
                (eq_sym narrow_wraps)
                (eq_ind_r (λ n, 0 < n) (Nat.lt_0_succ 1) narrow_wraps))
      as (_ & _ & full & Hrun & _ & Hslots & Hblocks & _).
    exists full. exact (conj Hrun (conj Hslots (Hblocks 3))).
Defined.

Section PCQueue_swap.
Import PCQueue.
Context {T : Type} {E : Element T}.




End PCQueue_swap.


Section PCQueue_schedules.
Import PCQueue.
Context {T : Type} {E : Element T}.

Lemma tally_cons (f : thread T → nat) th ts : tally f (th :: ts) = f th + tally f ts.
Proof. reflexivity. Qed.

Lemma tally_insert (f : thread T → nat) ts i th th' :
  ts !! i = Some th →
  tally f (<[i := th']> ts) + f th = tally f ts + f th'.
Proof.
  revert i. induction ts as [|t0 ts IH]; intros [|i] Hi; try done.
  - injection Hi as ->.
    change (<[0:=th']> (th :: ts)) with (th' :: ts). rewrite !tally_cons. lia.
  - apply (IH i) in Hi.
    change (<[S i:=th']> (t0 :: ts)) with (t0 :: <[i:=th']> ts).
    rewrite !tally_cons. lia.
Qed.

Lemma tally_calling (f : thread T → nat) rs :
  (∀ r, f (Calling r) = 0) → tally f (Calling <$> rs) = 0.
Proof.
  intros Hf. induction rs as [|r rs IH]; [done|].
  change (Calling <$> r :: rs) with (Calling r :: (Calling <$> rs)).
  by rewrite tally_cons, Hf, IH.
Qed.

(** A guarded block that unwinds leaves the items of the ring as they
    are: the one slot it can have changed is the producer's, which
    holds none of them. *)
Lemma unwound_ring r (q q' : t T) items :
  block_of r q = Unwound q' →
  (side r = Producer → length items < end_ q) →
  ring q items → ring q' items.
Proof.
  intros Hblock%block_unwound Hroom Hring.
  destruct r as [val|val|out|out]; [|destruct Hblock as [Hblock|Hblock]| |];
    subst q'; try done.
  by apply (ring_free_slot q items val); [|apply Hroom].
Qed.

(** Every step of every thread keeps the ring in order; a guarded block
    of a producer appends its value to the items, one of a consumer
    takes the oldest item off. *)
Lemma advance_ring i (s s' : t T * list (thread T)) items :
  ring_in_use s items → advance i s = Some s' →
  ∃ items', ring_in_use s' items' ∧
            match moves i s with
            | Some (Producer, x) => items' = items ++ [x]
            | Some (Consumer, x) => items = x :: items'
            | None => items' = items
            end.
Proof.
  destruct s as [q ts]. intros (Hring & Hfilled & Hfree). cbn [fst snd] in *.
  unfold advance, moves. cbn [fst snd].
  destruct (ts !! i) as [[r|r|ro x| |]|] eqn:Hi; try done.
  - (* the wait *)
    destruct (enter (side r) q) as [q1|] eqn:Hin; [|done].
    intros [= <-]. exists items. split; [|done].
    pose proof (tally_insert (holding Producer) ts i _ (Holding r) Hi) as HhP.
    pose proof (tally_insert (holding Consumer) ts i _ (Holding r) Hi) as HhC.
    pose proof (tally_insert (leaving Producer) ts i _ (Holding r) Hi) as HlP.
    pose proof (tally_insert (leaving Consumer) ts i _ (Holding r) Hi) as HlC.
    apply (ring_enter _ _ _ items) in Hin as Hsame.
    split; [by apply Hsame|]. cbn [fst snd] in *. cbn in HhP, HhC, HlP, HlC.
    destruct (side r);
      [apply enter_producer in Hin|apply enter_consumer in Hin];
      destruct Hin as (m & Hm & ->); cbn in *; lia.
  - (* the guarded block *)
    destruct (block_of r q) as [q1 x|q1|] eqn:Hblock; [| |done]; intros [= <-].
    + pose proof (tally_insert (holding Producer) ts i _ (Leaving (side r) x) Hi) as HhP.
      pose proof (tally_insert (holding Consumer) ts i _ (Leaving (side r) x) Hi) as HhC.
      pose proof (tally_insert (leaving Producer) ts i _ (Leaving (side r) x) Hi) as HlP.
      pose proof (tally_insert (leaving Consumer) ts i _ (Leaving (side r) x) Hi) as HlC.
      apply moved_counters in Hblock as Hsame. destruct Hsame as (He & Hu & Hn).
      cbn in HhP, HhC, HlP, HlC.
      destruct (side r) eqn:Hside; cbn in HhP, HhC, HlP, HlC.
      * destruct (ring_produce r q q1 x items Hside Hring) as [Hring1 _]; [lia|done|].
        exists (items ++ [payload r]). split; [|done].
        split; [done|]. cbn [fst snd]. rewrite length_app. cbn. lia.
      * destruct items as [|y items]; [cbn in Hfilled; lia|].
        destruct (ring_consume r q q1 x y items Hside Hring Hblock) as (-> & Hring1 & _).
        exists items. split; [|done].
        split; [done|]. cbn [fst snd]. cbn in Hfilled, Hfree. lia.
    + pose proof (tally_insert (holding Producer) ts i _ Threw Hi) as HhP.
      pose proof (tally_insert (holding Consumer) ts i _ Threw Hi) as HhC.
      pose proof (tally_insert (leaving Producer) ts i _ Threw Hi) as HlP.
      pose proof (tally_insert (leaving Consumer) ts i _ Threw Hi) as HlC.
      exists items. split; [|done].
      cbn in HhP, HhC, HlP, HlC.
      split.
      { apply (unwound_ring r q); [done| |done].
        intros Hside. rewrite Hside in HhP. cbn in HhP. lia. }
      cbn [fst snd].
      apply unwound_counters in Hblock as (Hwaits & Hposts & Hn).
      destruct (side r); cbn in *; lia.
  - (* the post *)
    intros [= <-]. exists items. split; [|done].
    pose proof (tally_insert (holding Producer) ts i _ (Returned x) Hi) as HhP.
    pose proof (tally_insert (holding Consumer) ts i _ (Returned x) Hi) as HhC.
    pose proof (tally_insert (leaving Producer) ts i _ (Returned x) Hi) as HlP.
    pose proof (tally_insert (leaving Consumer) ts i _ (Returned x) Hi) as HlC.
    split; [by apply ring_leave|]. cbn [fst snd]. cbn in HhP, HhC, HlP, HlC.
    destruct ro; cbn in *; lia.
Qed.

Lemma tally_lookup (f : thread T → nat) ts i th : ts !! i = Some th → f th ≤ tally f ts.
Proof.
  revert i. induction ts as [|t0 ts IH]; intros [|i] Hi; try done.
  - injection Hi as ->. rewrite tally_cons. lia.
  - apply (IH i) in Hi. rewrite tally_cons. lia.
Qed.

Lemma ring_blocks_apart (s : t T * list (thread T)) items i j rp rc :
  ring_in_use s items →
  s.2 !! i = Some (Holding rp) → side rp = Producer →
  s.2 !! j = Some (Holding rc) → side rc = Consumer →
  produce_at_ s.1 ≠ consume_at_ s.1.
Proof.
  destruct s as [q ts]. cbn [fst snd].
  intros ((Hlen & Hfit & Hc & Hp & _) & Hfilled & Hfree) Hi Hrp Hj Hrc.
  apply (tally_lookup (holding Producer)) in Hi.
  apply (tally_lookup (holding Consumer)) in Hj.
  cbn [holding] in Hi, Hj. rewrite Hrp in Hi. rewrite Hrc in Hj.
  cbn [on_side fst snd] in *.
  destruct Hc as [Hc|Hc]; [lia|].
  rewrite Hp. intros Heq.
  rewrite <- (Nat.mod_small (consume_at_ q) (end_ q)) in Heq at 2 by done.
  symmetry in Heq. apply mod_window in Heq; lia.
Qed.

Lemma ring_in_use_fresh mem k (rs : list (request T)) :
  ring_in_use (PCQueue mem k, Calling <$> rs) [].
Proof.
  split; [apply ring_fresh|]. cbn [fst snd].
  rewrite !tally_calling by done. cbn. pose proof (narrow_le k). lia.
Qed.


(** Every state the threads can reach has its ring in order. *)
Lemma reachable_ring mem k (rs : list (request T)) (s : t T * list (thread T)) :
  rtc step (PCQueue mem k, Calling <$> rs) s → ∃ items, ring_in_use s items.
Proof.
  assert (∀ a b : t T * list (thread T), rtc step a b →
            ∀ items, ring_in_use a items → ∃ items', ring_in_use b items') as Hinv.
  { induction 1 as [a|a b c [i Hstep] _ IH]; intros items Ha; [by exists items|].
    destruct (advance_ring i a b items Ha Hstep) as (items1 & Hb & _). by apply (IH items1). }
  intros Hreach. apply (Hinv _ _ Hreach []), ring_in_use_fresh.
Qed.

(** X4.  A producer and a consumer that both hold a slot hold different
    slots: the guarded blocks of the two sides, which no common mutex
    keeps apart, never work on the same slot. *)
Lemma blocks_apart mem k (rs : list (request T)) (s : t T * list (thread T)) i j rp rc :
  rtc step (PCQueue mem k, Calling <$> rs) s →
  s.2 !! i = Some (Holding rp) → side rp = Producer →
  s.2 !! j = Some (Holding rc) → side rc = Consumer →
  produce_at_ s.1 ≠ consume_at_ s.1.
Proof.
  intros [items Hs]%reachable_ring. by apply (ring_blocks_apart s items).
Qed.


End PCQueue_schedules.


Section PCQueue_progress.
Import PCQueue.
Context {T : Type} {E : Element T}.

(** A schedule that runs is a path of steps. *)
Lemma execute_reaches schedule : ∀ (s s' : t T * list (thread T)) written read,
  execute schedule s = Some (s', written, read) → rtc step s s'.
Proof.
  induction schedule as [|i schedule IH]; intros s s' written read Hrun.
  - injection Hrun as <- _ _. apply rtc_refl.
  - cbn [execute] in Hrun.
    destruct (advance i s) as [s1|] eqn:Hstep; [|done].
    destruct (execute schedule s1) as [[[s2 written1] read1]|] eqn:Hrest; [|done].
    injection Hrun as <- _ _.
    apply rtc_l with s1; [by exists i|]. by apply (IH s1 s2 written1 read1).
Qed.

Lemma unwound_end r (q q' : t T) : block_of r q = Unwound q' → end_ q' = end_ q.
Proof. by intros (_ & _ & ?)%unwound_counters. Qed.

(** No step moves the end of [storage_]. *)
Lemma advance_end i (s s' : t T * list (thread T)) :
  advance i s = Some s' → end_ s'.1 = end_ s.1.
Proof.
  destruct s as [q ts]. cbn.
  destruct (ts !! i) as [[r|r|ro x| |]|]; try done.
  - destruct (side r); cbn; destruct (WaitSemaphore _); cbn; try done;
      by intros [= <-].
  - destruct (block_of r q) as [q1 x|q1|] eqn:Hblock; [| |done]; intros [= <-].
    + by apply moved_counters in Hblock as (_ & _ & ?).
    + by apply unwound_end in Hblock.
  - intros [= <-]. by destruct ro.
Qed.

Lemma reachable_end mem k (rs : list (request T)) (s : t T * list (thread T)) :
  rtc step (PCQueue mem k, Calling <$> rs) s → end_ s.1 = k.
Proof.
  assert (∀ a b : t T * list (thread T), rtc step a b → end_ b.1 = end_ a.1) as Hinv.
  { induction 1 as [|a b c [i Hstep] _ IH]; [done|].
    rewrite IH. by apply advance_end with i. }
  intros Hreach. by rewrite (Hinv _ _ Hreach).
Qed.

Lemma reachable_accounted mem k (rs : list (request T)) (s : t T * list (thread T)) :
  rtc step (PCQueue mem k, Calling <$> rs) s →
  empty_ s.1 + used_ s.1 + in_flight s.2 = narrow k.
Proof.
  assert (∀ a b : t T * list (thread T), rtc step a b →
            empty_ b.1 + used_ b.1 + in_flight b.2
            = empty_ a.1 + used_ a.1 + in_flight a.2) as Hinv.
  { induction 1 as [|[q ts] [q1 ts1] c [i Hstep] _ IH]; [done|].
    rewrite IH. by apply advance_accounted with i. }
  intros Hreach. rewrite (Hinv _ _ Hreach). cbn [fst snd].
  rewrite in_flight_calling. cbn. lia.
Qed.

(** The cursor of a thread that holds a slot is inside [storage_]. *)
Lemma ring_cursor (s : t T * list (thread T)) items i r :
  ring_in_use s items → s.2 !! i = Some (Holding r) →
  match side r with Producer => produce_at_ s.1 | Consumer => consume_at_ s.1 end
    < length (storage_ s.1).
Proof.
  destruct s as [q ts]. cbn [fst snd].
  intros ((Hlen & Hfit & Hc & Hp & _) & Hfilled & Hfree) Hi. cbn [fst snd] in *.
  pose proof (tally_lookup (holding Producer) ts i _ Hi) as HP.
  pose proof (tally_lookup (holding Consumer) ts i _ Hi) as HC.
  cbn [holding] in HP, HC. rewrite Hlen.
  destruct (side r); cbn [on_side] in *.
  - rewrite Hp. apply Nat.mod_upper_bound. lia.
  - destruct Hc; lia.
Qed.

(** A guarded block whose cursor is inside [storage_] runs to its end
    or unwinds. *)
Lemma block_in_bounds r (q : t T) :
  match side r with Producer => produce_at_ q | Consumer => consume_at_ q end
    < length (storage_ q) →
  block_of r q ≠ Stray.
Proof.
  intros [slot Hslot]%lookup_lt_is_Some_2.
  destruct r as [val|val|out|out]; cbn in *;
    unfold Produce_guarded, ProduceSwap_guarded, Consume_guarded, ConsumeSwap_guarded;
    rewrite Hslot.
  - by case_match.
  - by destruct (std_swap_cases slot val) as [->|[->| ->]].
  - by case_match.
  - by destruct (std_swap_cases out slot) as [->|[->| ->]].
Qed.

Lemma ring_reserved_advances (s : t T * list (thread T)) items i th :
  ring_in_use s items → s.2 !! i = Some th → holds_slot th = true →
  ∃ s', advance i s = Some s'.
Proof.
  intros Hs Hi Hslot. destruct th as [r|r|ro x| |]; try done.
  - pose proof (block_in_bounds r s.1 (ring_cursor s items i r Hs Hi)) as Hblock.
    destruct s as [q ts]. cbn [fst snd] in *. unfold advance. rewrite Hi.
    destruct (block_of r q); [by eexists|by eexists|done].
  - destruct s as [q ts]. cbn [fst snd] in *. unfold advance. rewrite Hi. by eexists.
Qed.

(** With no slot at all nothing ever moves. *)
Lemma reachable_none mem (rs : list (request T)) (s : t T * list (thread T)) :
  rtc step (PCQueue mem 0, Calling <$> rs) s → s = (PCQueue mem 0, Calling <$> rs).
Proof.
  intros Hreach. apply rtc_inv in Hreach as [<-|(s1 & [i Hstep] & _)]; [done|].
  exfalso. cbn in Hstep. rewrite list_lookup_fmap in Hstep.
  destruct (rs !! i) as [r|]; [|done]. cbn in Hstep. by destruct (side r).
Qed.

(** X5.  Whatever calls the threads run on a new queue constructed with
    size [k] and however their steps interleave, in every state they
    reach [storage_] has its [k] slots and [end_] is past the last of
    them; with [k] positive both cursors are on a slot of [storage_],
    and with no slot both stay where they started, at [end_].  A thread
    that has passed its wait can always take its next step: its guarded
    block finds its cursor on a slot of [storage_], and its post never
    waits. *)
Theorem reserved_call_completes (mem : fresh_memory T) (k : nat) (rs : list (request T))
    (s : t T * list (thread T)) :
  rtc step (PCQueue mem k, Calling <$> rs) s →
  length (storage_ s.1) = k ∧ end_ s.1 = k ∧
  (0 < k → produce_at_ s.1 < k ∧ consume_at_ s.1 < k) ∧
  (k = 0 → produce_at_ s.1 = 0 ∧ consume_at_ s.1 = 0) ∧
  ∀ i th, s.2 !! i = Some th → holds_slot th = true →
          ∃ s', advance i s = Some s'.
Proof.
  intros Hreach.
  destruct (reachable_ring mem k rs s Hreach) as [items Hs].
  pose proof (reachable_end mem k rs s Hreach) as Hend.
  split_and!.
  - destruct Hs as ((Hlen & _) & _). congruence.
  - done.
  - intros Hk. destruct Hs as ((_ & _ & Hc & Hp & _) & _). split.
    + rewrite Hp, Hend. apply Nat.mod_upper_bound. lia.
    + destruct Hc; lia.
  - intros ->. by rewrite (reachable_none mem rs s Hreach).
  - intros i th Hi Hslot. by apply (ring_reserved_advances s items i th).
Qed.

Lemma in_flight_some (ts : list (thread T)) :
  0 < in_flight ts → ∃ i th, ts !! i = Some th ∧ holds_slot th = true.
Proof.
  induction ts as [|t0 ts IH]; [cbn; lia|].
  rewrite in_flight_cons. unfold weight.
  destruct (holds_slot t0) eqn:Ht0; [by exists 0, t0|].
  intros Hpos. destruct IH as (i & th & Hi & Hth); [lia|]. by exists (S i), th.
Qed.

(** X6.  The threads can come to a standstill in one way only.  When no
    thread can take a step, no call is under way, and every thread that
    has a call to make is kept at its wait: a producer by [empty_] at
    zero, with [used_] at the value [empty_] was constructed with, a
    consumer by an empty queue, with [used_] at zero.  So unless
    [empty_] was constructed with zero, a producer and a consumer are
    never both kept waiting. *)
Theorem standstill_only_full_or_empty (mem : fresh_memory T) (k : nat)
    (rs : list (request T)) (s : t T * list (thread T)) :
  rtc step (PCQueue mem k, Calling <$> rs) s →
  (∀ i, advance i s = None) →
  in_flight s.2 = 0 ∧
  (∀ i r, s.2 !! i = Some (Calling r) →
          match side r with
          | Producer => empty_ s.1 = 0 ∧ used_ s.1 = narrow k
          | Consumer => used_ s.1 = 0 ∧ empty_ s.1 = narrow k
          end) ∧
  (0 < narrow k → ∀ i j rp rc,
     s.2 !! i = Some (Calling rp) → s.2 !! j = Some (Calling rc) → side rp = side rc).
Proof.
  intros Hreach Hstuck.
  destruct (reachable_ring mem k rs s Hreach) as [items Hs].
  pose proof (reachable_accounted mem k rs s Hreach) as Hsum.
  assert (in_flight s.2 = 0) as Hnone.
  { destruct (decide (0 < in_flight s.2)) as [Hpos|]; [|lia].
    destruct (in_flight_some _ Hpos) as (i & th & Hi & Hth).
    destruct (ring_reserved_advances s items i th Hs Hi Hth) as [s' Hs'].
    by rewrite Hstuck in Hs'. }
  assert (∀ i r, s.2 !! i = Some (Calling r) →
            match side r with
            | Producer => empty_ s.1 = 0 ∧ used_ s.1 = narrow k
            | Consumer => used_ s.1 = 0 ∧ empty_ s.1 = narrow k
            end) as Hkept.
  { intros i r Hi. specialize (Hstuck i).
    destruct s as [q ts]. cbn [fst snd] in *. unfold advance in Hstuck. rewrite Hi in Hstuck.
    destruct (side r); cbn in Hstuck.
    - destruct (empty_ q); [lia|done].
    - destruct (used_ q); [lia|done]. }
  split; [done|]. split; [done|].
  intros Hk i j rp rc Hi Hj. apply Hkept in Hi, Hj.
  destruct (side rp), (side rc); try done; lia.
Qed.



End PCQueue_progress.

(** Two slots, one item in: a second producer and a consumer have both
    passed their wait. *)
Lemma blocks_apart_witness :
  let pool := PCQueue.Calling <$>
    [PCQueue.ReqProduce 1; PCQueue.ReqConsume 0; PCQueue.ReqProduce 2] in
  ∃ s, PCQueue.execute [0; 0; 0; 2; 1] (PCQueue.PCQueue PCQueue.Constructed 2, pool)
       = Some (s, [1], []) ∧
       s.2 !! 2 = Some (PCQueue.Holding (PCQueue.ReqProduce 2)) ∧
       s.2 !! 1 = Some (PCQueue.Holding (PCQueue.ReqConsume 0)) ∧
       PCQueue.produce_at_ s.1 ≠ PCQueue.consume_at_ s.1.
Proof.
  intros pool.
  assert (∃ s, PCQueue.execute [0; 0; 0; 2; 1]
                 (PCQueue.PCQueue PCQueue.Constructed 2, pool) = Some (s, [1], []) ∧
               s.2 !! 2 = Some (PCQueue.Holding (PCQueue.ReqProduce 2)) ∧
               s.2 !! 1 = Some (PCQueue.Holding (PCQueue.ReqConsume 0)))
    as (s & Hrun & H2 & H1).
  { eexists. vm_compute. by split_and!. }
  exists s. split_and!; [exact Hrun|exact H2|exact H1|].
  exact (blocks_apart PCQueue.Constructed 2 _ s 2 1 _ _
           (execute_reaches _ _ _ _ _ Hrun) H2 eq_refl H1 eq_refl).
Defined.

(** One slot, one producer past its wait. *)
Lemma reserved_call_completes_witness :
  let s := (PCQueue.mk 0 0 [0] 1 0 0, [PCQueue.Holding (PCQueue.ReqProduce 5)]) in
  rtc PCQueue.step
    (PCQueue.PCQueue PCQueue.Constructed 1, PCQueue.Calling <$> [PCQueue.ReqProduce 5]) s ∧
  PCQueue.produce_at_ s.1 < 1 ∧
  ∃ s', PCQueue.advance 0 s = Some s'.
Proof.
  intros s.
  assert (rtc PCQueue.step
            (PCQueue.PCQueue PCQueue.Constructed 1,
             PCQueue.Calling <$> [PCQueue.ReqProduce 5]) s) as Hreach.
  { eapply rtc_l; [by exists 0|]. apply rtc_refl. }
  destruct (reserved_call_completes PCQueue.Constructed 1 _ s Hreach)
    as (_ & _ & Hcursors & _ & Hnext).
  split; [exact Hreach|]. split; [exact (proj1 (Hcursors (Nat.lt_0_succ 0)))|].
  exact (Hnext 0 _ eq_refl eq_refl).
Defined.

(** One slot, filled by the first producer: the second is kept waiting. *)
Lemma standstill_only_full_or_empty_witness :
  let s := (PCQueue.mk 0 1 [5] 1 0 0,
            [PCQueue.Returned 5; PCQueue.Calling (PCQueue.ReqProduce 6)]) in
  rtc PCQueue.step
    (PCQueue.PCQueue PCQueue.Constructed 1,
     PCQueue.Calling <$> [PCQueue.ReqProduce 5; PCQueue.ReqProduce 6]) s ∧
  (∀ i, PCQueue.advance i s = None) ∧
  PCQueue.in_flight s.2 = 0 ∧ PCQueue.used_ s.1 = 1.
Proof.
  intros s.
  assert (rtc PCQueue.step
            (PCQueue.PCQueue PCQueue.Constructed 1,
             PCQueue.Calling <$> [PCQueue.ReqProduce 5; PCQueue.ReqProduce 6]) s) as Hreach.
  { apply (execute_reaches [0; 0; 0] _ _ [5] []). reflexivity. }
  assert (∀ i, PCQueue.advance i s = None) as Hstuck.
  { intros [|[|i]]; reflexivity. }
  destruct (standstill_only_full_or_empty PCQueue.Constructed 1 _ s Hreach Hstuck)
    as (Hnone & Hkept & _).
  split_and!; [exact Hreach|exact Hstuck|exact Hnone|].
  exact (proj2 (Hkept 1 (PCQueue.ReqProduce 6) eq_refl)).
Defined.


Section PCQueue_calls.
Import PCQueue.
Context {T : Type} {E : Element T}.

Lemma returns_end r (q q' : t T) x : perform r q = Returns q' x → end_ q' = end_ q.
Proof.
  intros (q1 & q2 & H1 & H2 & H3)%call_in_steps.
  apply advance_end in H1, H2, H3. cbn [fst] in *. congruence.
Qed.

(** Calls that return keep the queue holding its items. *)
Lemma run_keeps rs : ∀ (q q' : t T) items got,
  holds q items → run rs q = Some (q', got) →
  length got = consumes rs ∧ end_ q' = end_ q ∧
  empty_ q' + used_ q' = empty_ q + used_ q ∧
  ∃ rest, holds q' rest ∧ items ++ produced rs = got ++ rest.
Proof.
  induction rs as [|r rs IH]; intros q q' items got Hq Hrun.
  - injection Hrun as <- <-. split_and!; [done..|]. exists items. by rewrite app_nil_r.
  - cbn [run] in Hrun.
    destruct (perform r q) as [q1 x| | |] eqn:Hr; try done.
    destruct (run rs q1) as [[q2 got1]|] eqn:Hrs; [|done].
    injection Hrun as <- <-.
    pose proof (holds_perform r q q1 x items Hq Hr) as Hq1.
    apply returns_end in Hr as Hend.
    assert (empty_ q1 + used_ q1 = empty_ q + used_ q) as Hsum.
    { apply (perform_accounted r). left. by exists x. }
    destruct (side r) eqn:Hside.
    + destruct (IH q1 q2 _ got1 Hq1 Hrs) as (Hlen & Hend' & Hsum' & rest & Hrest & Heq).
      rewrite produced_producer, consumes_producer by done.
      split_and!; [done|congruence|congruence|].
      exists rest. by rewrite <- Heq, <- app_assoc.
    + destruct Hq1 as (items1 & -> & Hq1).
      destruct (IH q1 q2 _ got1 Hq1 Hrs) as (Hlen & Hend' & Hsum' & rest & Hrest & Heq).
      destruct (produced_consumer r rs Hside) as [-> ->].
      split_and!; [cbn; by f_equal|congruence|congruence|].
      exists rest. split; [done|]. cbn. by f_equal.
Qed.

(** On a queue that holds its items a call is suspended exactly when
    the semaphore it waits on is at zero, and it never strays. *)
Lemma holds_blocks r (q : t T) items :
  holds q items →
  (perform r q = Blocks ↔ waits_on (side r) q = 0) ∧ perform r q ≠ Faults.
Proof.
  intros ((Hlen & Hfit & Hc & Hp & Hitems) & Hused & Hsum).
  rewrite perform_call. unfold call.
  destruct (waits_on (side r) q) as [|m] eqn:Hwait.
  - assert (enter (side r) q = None) as ->; [|done].
    destruct (side r); cbn in *; by rewrite Hwait.
  - assert (enter (side r) q
            = Some (match side r with
                    | Producer => set_empty_ m q
                    | Consumer => set_used_ m q
                    end)) as ->.
    { destruct (side r); cbn in *; by rewrite Hwait. }
    pose proof (block_in_bounds r
                  (match side r with
                   | Producer => set_empty_ m q
                   | Consumer => set_used_ m q
                   end)) as Hblock.
    destruct (block_of r _); [done|done|].
    destruct Hblock; [|done].
    destruct (side r); cbn in *; rewrite Hlen.
    + rewrite Hp. apply Nat.mod_upper_bound. lia.
    + destruct Hc; lia.
Qed.

(** X8.  After any calls on a new queue constructed with size [k] that
    have returned, the number of items produced and not yet consumed is
    [used_], between 0 and the value [empty_] was constructed with, and
    the two semaphores add up to that value; a further producing call
    is suspended exactly when as many items are pending, a further
    consuming call exactly when none is; and no further call finds a
    cursor outside [storage_]. *)
Theorem suspended_exactly_when (mem : fresh_memory T) (k : nat) (rs : list (request T))
    (q : t T) (got : list T) (r : request T) :
  run rs (PCQueue mem k) = Some (q, got) →
  consumes rs ≤ length (produced rs) ≤ consumes rs + narrow k ∧
  used_ q = length (produced rs) - consumes rs ∧
  empty_ q + used_ q = narrow k ∧
  (perform r q = Blocks ↔
     match side r with
     | Producer => length (produced rs) = consumes rs + narrow k
     | Consumer => length (produced rs) = consumes rs
     end) ∧
  perform r q ≠ Faults.
Proof.
  intros Hrun.
  destruct (run_keeps rs _ _ [] got (holds_fresh mem k) Hrun)
    as (Hlen & Hend & Hsum & rest & Hq & Heq).
  cbn in Heq, Hend, Hsum. rewrite Heq, length_app, Hlen.
  destruct (holds_blocks r q rest Hq) as [Hblocks Hsafe].
  destruct Hq as ((_ & Hfit & _) & Hused & _).
  split_and!; [lia|lia|lia|lia| |done].
  rewrite Hblocks. destruct (side r); cbn; lia.
Qed.

(** Putting [x] where [y] was and keeping [y] is, up to order, keeping
    [x]. *)
Lemma insert_swap_perm (l : list T) i x y :
  l !! i = Some y → <[i := x]> l ++ [y] ≡ₚ l ++ [x].
Proof.
  revert i. induction l as [|z l IH]; intros [|i] Hi; try done.
  - injection Hi as ->. cbn. rewrite <- !Permutation_cons_append. apply perm_swap.
  - cbn. by rewrite (IH i).
Qed.

Lemma swap_perm r (q q' : t T) x :
  swapping r = true → perform r q = Returns q' x →
  storage_ q' ++ [x] ≡ₚ storage_ q ++ [payload r].
Proof.
  intros Hswap. rewrite perform_call. unfold call.
  destruct (enter (side r) q) as [q1|] eqn:Hin; [|done].
  apply enter_counters in Hin as (_ & _ & Hp & Hc & Hs & _).
  destruct (block_of r q1) as [q2 y| |] eqn:Hblock; try done.
  intros [= <- <-]. apply block_moved in Hblock.
  destruct r as [val|val|out|out]; try done; destruct Hblock as [Hslot ->];
    rewrite Hs in *; cbn [side leave payload];
    unfold step_produce_at_, step_consume_at_; cbn -[Nat.eqb]; case_match; cbn;
    apply insert_swap_perm; congruence.
Qed.

(** X9.  The swapping calls neither copy an object nor drop one.  After
    any [ProduceSwap] and [ConsumeSwap] calls that have returned, on any
    queue, the objects in the slots together with the objects the
    callers were handed back are, up to order, the objects that were in
    the slots together with the objects the callers handed in. *)
Theorem swaps_conserve (rs : list (request T)) : ∀ (q q' : t T) (xs : list T),
  forallb swapping rs = true →
  replies rs q = Some (q', xs) →
  storage_ q' ++ xs ≡ₚ storage_ q ++ (payload <$> rs) ∧
  length (storage_ q') = length (storage_ q).
Proof.
  induction rs as [|r rs IH]; intros q q' xs Hswap Hrun.
  - injection Hrun as <- <-. by rewrite !app_nil_r.
  - cbn [forallb] in Hswap. apply andb_prop in Hswap as [Hr Hrs].
    cbn [replies] in Hrun.
    destruct (perform r q) as [q1 x| | |] eqn:Hcall; try done.
    destruct (replies rs q1) as [[q2 xs1]|] eqn:Hrest; [|done].
    injection Hrun as <- <-.
    destruct (IH q1 q2 xs1 Hrs Hrest) as [Hperm Hlen].
    pose proof (swap_perm r q q1 x Hr Hcall) as Hstep.
    split.
    + cbn [fmap list_fmap].
      rewrite <- Permutation_middle, Hperm, Permutation_middle.
      change (x :: (payload <$> rs)) with ([x] ++ (payload <$> rs)).
      change (payload r :: (payload <$> rs)) with ([payload r] ++ (payload <$> rs)).
      by rewrite !app_assoc, Hstep.
    + rewrite Hlen. apply Permutation_length in Hstep.
      rewrite !length_app in Hstep. cbn in Hstep. lia.
Qed.

End PCQueue_calls.

Section PCQueue_by_value.
Import PCQueue.
Context {T : Type} {E : Element T} {NT : Nothrow T}.

(** X10.  [Consume()], the variant that returns by value.  With
    elements that do not throw it does what [Consume(out)] does,
    whatever [out] held: on a queue that holds items it returns the
    oldest one and leaves the others, and on a queue that holds none it
    is suspended. *)
Theorem Consume_by_value (q : t T) (items : list T) :
  holds q items →
  (∀ out, Consume out q = Consume0 q) ∧
  match items with
  | [] => Consume0 q = Blocks
  | x :: rest => ∃ q', Consume0 q = Returns q' x ∧ holds q' rest
  end.
Proof.
  intros Hq. split.
  - intros out. unfold Consume0, Consume, Consume_guarded.
    destruct (WaitSemaphore (used_ q)); [|done].
    destruct (storage_ _ !! _); [|done]. by rewrite !assign_nothrow.
  - destruct items as [|x rest].
    + destruct (holds_blocks (ReqConsume T_default) q [] Hq) as [Hblocks _].
      apply Hblocks. cbn. by destruct Hq as (_ & -> & _).
    + destruct (holds_consume (ReqConsume T_default) q x rest eq_refl Hq)
        as (q' & Hrun & Hq' & _).
      by exists q'.
Qed.

End PCQueue_by_value.

(** Two values produced, none consumed, on two slots. *)
Lemma suspended_exactly_when_witness :
  let rs := [PCQueue.ReqProduce 1; PCQueue.ReqProduce 2] in
  ∃ q, PCQueue.run rs (PCQueue.PCQueue PCQueue.Constructed 2) = Some (q, []) ∧
       PCQueue.Produce 3 q = PCQueue.Blocks ∧
       PCQueue.Consume 0 q ≠ PCQueue.Blocks.
Proof.
  intros rs.
  assert (∃ q, PCQueue.run rs (PCQueue.PCQueue PCQueue.Constructed 2) = Some (q, []))
    as [q Hrun].
  { eexists. vm_compute. reflexivity. }
  exists q. split; [exact Hrun|].
  destruct (suspended_exactly_when PCQueue.Constructed 2 rs q [] (PCQueue.ReqProduce 3) Hrun)
    as (_ & _ & _ & Hproduce & _).
  destruct (suspended_exactly_when PCQueue.Constructed 2 rs q [] (PCQueue.ReqConsume 0) Hrun)
    as (_ & _ & _ & Hconsume & _).
  split; [by apply Hproduce|].
  intros Hblocks. by apply Hconsume in Hblocks.
Defined.

(** Two slots.  The object the consumer leaves in the first slot is the
    one the third producer is handed back. *)
Lemma swaps_conserve_witness :
  let rs := [PCQueue.ReqProduceSwap 1; PCQueue.ReqProduceSwap 2;
             PCQueue.ReqConsumeSwap 9; PCQueue.ReqProduceSwap 3] in
  ∃ q, PCQueue.replies rs (PCQueue.PCQueue PCQueue.Constructed 2)
       = Some (q, [0; 0; 1; 9]) ∧
       PCQueue.storage_ q ++ [0; 0; 1; 9] ≡ₚ [0; 0] ++ [1; 2; 9; 3].
Proof.
  intros rs.
  assert (∃ q, PCQueue.replies rs (PCQueue.PCQueue PCQueue.Constructed 2)
               = Some (q, [0; 0; 1; 9])) as [q Hrun].
  { eexists. vm_compute. reflexivity. }
  exists q. split; [exact Hrun|].
  exact (proj1 (swaps_conserve rs (PCQueue.PCQueue PCQueue.Constructed 2) q [0; 0; 1; 9]
                  eq_refl Hrun)).
Defined.

(** One slot with an item in it. *)
Lemma Consume_by_value_witness :
  let q := PCQueue.mk 0 1 [7] 1 0 0 in
  PCQueue.holds q [7] ∧ ∃ q', PCQueue.Consume0 q = PCQueue.Returns q' 7.
Proof.
  intros q.
  assert (PCQueue.holds q [7]) as Hq.
  { repeat split; cbn; try lia. intros [|i] x; [|done]. cbn. by intros [= <-]. }
  split; [exact Hq|].
  destruct (Consume_by_value q [7] Hq) as [_ (q' & Hrun & _)].
  exists q'. exact Hrun.
Defined.

(** ** The unbounded queue *)
Section Unbounded_facts.
Import UnboundedSingleQueue.
Context {T : Type} {E : Element T}.

Lemma entries_count_pos : 0 < entries_count.
Proof. unfold entries_count. lia. Qed.

Lemma new_page_entries : length (entries (UnboundedPage_new (T:=T))) = entries_count.
Proof. apply length_replicate. Qed.

(** The pages of a span have addresses from its first page on: a store
    that agrees from there on carries the same span. *)
Lemma span_frame (m m' : gmap nat (UnboundedPage T)) page from last upto items :
  span m page from last upto items →
  (∀ a, page ≤ a → m' !! a = m !! a) →
  span m' page from last upto items.
Proof.
  induction 1 as [last from upto pg Hpg Hlen Hle
                 |page from last upto pg page' items Hpg Hlen Hle Hnext Hlt _ IH];
    intros Hsame.
  - apply span_last; [|done..]. by rewrite Hsame.
  - eapply span_link; [|done..|].
    + by rewrite Hsame.
    + apply IH. intros a Ha. apply Hsame. lia.
Qed.

Lemma span_bounds (m : gmap nat (UnboundedPage T)) page from last upto items :
  span m page from last upto items →
  page ≤ last ∧ from ≤ entries_count ∧ upto ≤ entries_count ∧
  (page = last → from ≤ upto) ∧
  ∃ pg, m !! last = Some pg ∧ length (entries pg) = entries_count.
Proof.
  induction 1 as [last from upto pg Hpg Hlen Hle
                 |page from last upto pg page' items Hpg Hlen Hle Hnext Hlt _ IH].
  - split_and!; try lia. by exists pg.
  - destruct IH as (? & ? & ? & ? & ?). split_and!; try lia. done.
Qed.

(** Writing the entry at [upto] of the last page extends the span by the
    value written. *)
Lemma span_snoc (m : gmap nat (UnboundedPage T)) page from last upto items v :
  span m page from last upto items →
  upto < entries_count →
  span (alter (λ pg, mkPage (next pg) (<[upto := v]> (entries pg))) last m)
       page from last (S upto) (items ++ [v]).
Proof.
  induction 1 as [last from upto pg Hpg Hlen Hle
                 |page from last upto pg page' items Hpg Hlen Hle Hnext Hlt Htail IH];
    intros Hroom.
  - replace (take (upto - from) (drop from (entries pg)) ++ [v])
      with (take (S upto - from) (drop from (<[upto := v]> (entries pg)))).
    + apply (span_last _ last from (S upto) (mkPage (next pg) (<[upto := v]> (entries pg))));
        [|change (length (<[upto:=v]> (entries pg)) = entries_count);
           by rewrite length_insert|lia].
      by rewrite lookup_alter_eq, Hpg.
    + rewrite drop_insert_ge by lia.
      replace (S upto - from) with (S (upto - from)) by lia.
      erewrite take_S_r.
      * by rewrite take_insert_ge by lia.
      * apply list_lookup_insert_eq. rewrite length_drop. lia.
  - rewrite <- app_assoc.
    apply span_bounds in Htail as Hb. destruct Hb as (Hb & _).
    eapply span_link; [|done..|by apply IH].
    rewrite lookup_alter_ne by lia. done.
Qed.

(** A new last page [a], linked from the full page [last] and written at
    its first entry, extends the span by the value written. *)
Lemma span_grow (m m' : gmap nat (UnboundedPage T)) page from last items a pga v :
  span m page from last entries_count items →
  last < a →
  (∀ b, b < last → m' !! b = m !! b) →
  (∀ pg, m !! last = Some pg → m' !! last = Some (mkPage (Some a) (entries pg))) →
  m' !! a = Some pga → length (entries pga) = entries_count →
  entries pga !! 0 = Some v →
  span m' page from a 1 (items ++ [v]).
Proof.
  intros Hspan Ha Hbelow Hlast Hpga Hlen Hv.
  assert (span m' a 0 a 1 [v]) as Hnew.
  { replace [v] with (take (1 - 0) (drop 0 (entries pga))).
    - apply span_last; [done..|]. pose proof entries_count_pos. lia.
    - destruct (entries pga) as [|e l]; [done|]. by injection Hv as ->. }
  remember entries_count as upto eqn:Hupto in Hspan.
  induction Hspan as [last from upto pg Hpg Hlen' Hle
                 |page from last upto pg page' items Hpg Hlen' Hle Hnext Hlt Htail IH];
    subst upto.
  - rewrite take_ge by (rewrite length_drop; lia).
    apply (span_link _ last from a 1 (mkPage (Some a) (entries pg)) a [v]);
      [by apply Hlast|exact Hlen'|lia|reflexivity|exact Ha|exact Hnew].
  - rewrite <- app_assoc.
    apply span_bounds in Htail as Hb. destruct Hb as (Hb & _).
    eapply span_link; [|done..|].
    + rewrite Hbelow by lia. done.
    + by apply IH.
Qed.

(** The oldest item is the entry at [from] of the first page. *)
Lemma span_head (m : gmap nat (UnboundedPage T)) page from last upto x items :
  span m page from last upto (x :: items) →
  from < entries_count →
  (∃ pg, m !! page = Some pg ∧ entries pg !! from = Some x) ∧
  span m page (S from) last upto items.
Proof.
  intros Hspan Hfrom. remember (x :: items) as l eqn:Heq.
  destruct Hspan as [last from upto pg Hpg Hlen Hle
                    |page from last upto pg page' items' Hpg Hlen Hle Hnext Hlt Htail];
    destruct (lookup_lt_is_Some_2 (entries pg) from) as [y Hy]; try lia;
    rewrite (drop_S _ _ _ Hy) in Heq.
  - destruct (decide (upto = from)) as [->|Hne].
    { by rewrite Nat.sub_diag in Heq. }
    replace (upto - from) with (S (upto - S from)) in Heq by lia.
    cbn in Heq. injection Heq as -> <-.
    split; [by exists pg|]. apply span_last; [done..|lia].
  - cbn in Heq. injection Heq as -> <-.
    split; [by exists pg|]. by eapply span_link.
Qed.

(** A drained first page with items still to come has a successor, and
    the items start there. *)
Lemma span_turn (m : gmap nat (UnboundedPage T)) page last upto x items :
  span m page entries_count last upto (x :: items) →
  ∃ pg page', m !! page = Some pg ∧ next pg = Some page' ∧ page < page' ∧
              span m page' 0 last upto (x :: items).
Proof.
  intros Hspan. remember (x :: items) as l eqn:Heq.
  remember entries_count as from eqn:Hfrom.
  destruct Hspan as [last from upto pg Hpg Hlen Hle
                    |page from last upto pg page' items' Hpg Hlen Hle Hnext Hlt Htail];
    subst from.
  - replace (upto - entries_count) with 0 in Heq by lia. done.
  - rewrite drop_ge in Heq by lia. cbn in Heq. subst items'.
    exists pg, page'. by rewrite drop_ge by lia.
Qed.

End Unbounded_facts.

Section Unbounded_runs.
Import UnboundedSingleQueue.
Context {T : Type} {E : Element T} {NT : Nothrow T}.

Opaque entries_count.

(** Exposes the fields of the record a queue operation builds. *)
Ltac fields :=
  unfold new_page, SetFilling, SetReading, set_store, set_valid_,
    set_filling_current_, set_reading_current_, deref, poke;
  cbn [store allocated valid_ filling_ reading_ filling_current_ filling_end_
       reading_current_ reading_end_ fst snd].

Lemma holds_fresh_unbounded : holds (UnboundedSingleQueue (T:=T)) [].
Proof.
  exists 0. cbn. split_and!; try done; try lia.
  apply (span_last _ 0 0 0 UnboundedPage_new); [done|apply new_page_entries|lia].
Qed.

(** [Produce] returns on every queue that holds its items, with the
    value appended; it takes a new page exactly when the cursor of the
    filling page is at its end. *)
Lemma holds_Produce (q : t T) items v :
  holds q items →
  ∃ q', Produce v q = Returns q' v ∧ holds q' (items ++ [v]) ∧
        allocated q' = (if decide (written q = entries_count)
                        then S (allocated q) else allocated q) ∧
        written q' = (if decide (written q = entries_count) then 1 else S (written q)).
Proof.
  intros (r & Hr & Hrc & Hre & Hfc & Hfe & Hal & Hvalid & Hspan).
  destruct q as [m al vl f rd [f' j] fe [r' i] re]. cbn in * |-. subst.
  apply span_bounds in Hspan as Hb. destruct Hb as (Hrf & Hi & Hj & _ & pg & Hpg & Hlen).
  unfold Produce, grow, written. cbn [filling_current_ filling_end_ snd].
  destruct (decide (j = entries_count)) as [->|Hne].
  - rewrite decide_True by done. fields.
    rewrite lookup_insert_ne, Hpg by lia. fields.
    rewrite lookup_insert_ne by lia. rewrite lookup_insert_eq. cbn [mbind option_bind].
    unfold UnboundedPage_new at 1. cbn [entries].
    rewrite lookup_replicate_2 by apply entries_count_pos.
    rewrite assign_nothrow.
    eexists. split; [reflexivity|]. split; [|done].
    exists r. cbn. split_and!; try done; try lia.
    + rewrite length_app. cbn. lia.
    + apply (span_grow m _ r i f items al
               (mkPage None (<[0 := v]> (replicate entries_count T_default))) v);
        [exact Hspan|exact Hal|..].
      * intros b Hb. rewrite lookup_alter_ne, !lookup_insert_ne by lia. done.
      * intros pg' Hpg'. rewrite lookup_alter_ne, lookup_insert_eq by lia. congruence.
      * rewrite lookup_alter_eq, lookup_insert_ne, lookup_insert_eq by lia. reflexivity.
      * change (length (<[0:=v]> (replicate entries_count T_default)) = entries_count).
        by rewrite length_insert, length_replicate.
      * apply list_lookup_insert_eq. rewrite length_replicate. apply entries_count_pos.
  - rewrite decide_False by congruence. fields.
    rewrite Hpg. cbn [mbind option_bind].
    destruct (lookup_lt_is_Some_2 (entries pg) j) as [slot Hslot]; [lia|].
    rewrite Hslot, assign_nothrow.
    eexists. split; [reflexivity|]. split; [|done].
    exists r. cbn. split_and!; try done.
    + rewrite length_app. cbn. lia.
    + apply span_snoc; [done|lia].
Qed.

(** [Consume] returns the oldest item of a queue that holds one. *)
Lemma holds_Consume (q : t T) x items out :
  holds q (x :: items) →
  ∃ q', Consume out q = Returns q' x ∧ holds q' items ∧ allocated q' = allocated q.
Proof.
  intros (r & Hr & Hrc & Hre & Hfc & Hfe & Hal & Hvalid & Hspan).
  destruct q as [m al vl f rd [f' j] fe [r' i] re]. cbn in * |-. subst.
  unfold Consume, turn. cbn [valid_ WaitSemaphore Semaphore.wait Linux.wait].
  change (WaitSemaphore (S (length items))) with (Some (length items)).
  fields.
  destruct (decide (i = entries_count)) as [->|Hne].
  - rewrite decide_True by done.
    destruct (span_turn _ _ _ _ _ _ Hspan) as (pg & r' & Hpg & Hnext & Hlt & Htail).
    cbn [mbind option_bind]. rewrite Hpg, Hnext.
    apply span_head in Htail as [(pg' & Hpg' & Hx) Htail']; [|apply entries_count_pos].
    fields.
    rewrite lookup_delete_ne, Hpg' by lia. cbn [mbind option_bind].
    rewrite Hx, assign_nothrow.
    eexists. split; [reflexivity|]. split; [|done].
    exists r'. cbn. split_and!; try done.
    apply span_frame with m; [done|].
    intros a Ha. rewrite lookup_delete_ne by lia. done.
  - rewrite decide_False by congruence.
    apply span_bounds in Hspan as Hb. destruct Hb as (_ & Hi & _).
    apply span_head in Hspan as [(pg & Hpg & Hx) Htail]; [|lia].
    fields.
    rewrite Hpg. cbn [mbind option_bind]. rewrite Hx, assign_nothrow.
    eexists. split; [reflexivity|]. split; [|done].
    exists r. cbn. by split_and!.
Qed.

Transparent entries_count.

End Unbounded_runs.

Section Unbounded_claims.
Import UnboundedSingleQueue.
Context {T : Type} {E : Element T} {NT : Nothrow T}.

Lemma run_Produce (vs : list T) : ∀ (q : t T) items,
  holds q items →
  ∃ q', run (ReqProduce <$> vs) q = Some (q', []) ∧ holds q' (items ++ vs) ∧
        written q' + entries_count * allocated q'
          = written q + entries_count * allocated q + length vs ∧
        (vs ≠ [] → 0 < written q').
Proof.
  induction vs as [|v vs IH]; intros q items Hq.
  - exists q. rewrite app_nil_r. cbn. split_and!; [done|done|lia|done].
  - destruct (holds_Produce q items v Hq) as (q1 & Hrun & Hq1 & Hal & Hw).
    destruct (IH q1 _ Hq1) as (q' & Hrs & Hq' & Hsum & Hpos).
    exists q'. cbn [fmap list_fmap run perform]. rewrite Hrun.
    change (list_fmap _ _ ReqProduce vs) with (ReqProduce <$> vs). rewrite Hrs.
    rewrite <- app_assoc in Hq'. split_and!; [done|done| |].
    + rewrite Hsum, Hal, Hw. cbn [length]. case_decide; lia.
    + intros _. destruct vs as [|v' vs]; [|by apply Hpos].
      cbn in Hrs. injection Hrs as <-. rewrite Hw. case_decide; lia.
Qed.

Lemma run_Consume (xs : list T) : ∀ (q : t T) items outs,
  holds q (xs ++ items) → length outs = length xs →
  ∃ q', run (ReqConsume <$> outs) q = Some (q', xs) ∧ holds q' items ∧
        allocated q' = allocated q.
Proof.
  induction xs as [|x xs IH]; intros q items outs Hq Hlen.
  - destruct outs; [|done]. by exists q.
  - destruct outs as [|out outs]; [done|].
    destruct (holds_Consume q x (xs ++ items) out Hq) as (q1 & Hrun & Hq1 & Hal).
    destruct (IH q1 items outs Hq1) as (q' & Hrs & Hq' & Hal'); [by injection Hlen|].
    exists q'. cbn [fmap list_fmap run perform]. rewrite Hrun.
    change (list_fmap _ _ ReqConsume outs) with (ReqConsume <$> outs). rewrite Hrs.
    split_and!; [done|done|congruence].
Qed.

(** C5.  [Produce] never ends suspended in a wait, whatever the state of
    the queue and however many items are pending.  Any number of
    [Produce] calls on a new queue all return, and as many [Consume]
    calls made afterwards all return and obtain the values in the order
    they were produced. *)
Theorem unbounded_produce_then_consume (vs outs : list T) :
  length outs = length vs →
  (∀ v (q : t T), Produce v q ≠ Blocks) ∧
  ∃ q, run (ReqProduce <$> vs) UnboundedSingleQueue = Some (q, []) ∧
       valid_ q = length vs ∧
       ∃ q', run (ReqConsume <$> outs) q = Some (q', vs) ∧ valid_ q' = 0.
Proof.
  intros Hlen. split.
  { intros v q. unfold Produce. by repeat case_match. }
  destruct (run_Produce vs UnboundedSingleQueue [] holds_fresh_unbounded)
    as (q & Hrun & Hq & _).
  cbn [app] in Hq. exists q. split; [done|].
  split. { by destruct Hq as (? & _ & _ & _ & _ & _ & _ & ? & _). }
  destruct (run_Consume vs q [] outs) as (q' & Hrun' & Hq' & _);
    [by rewrite app_nil_r|done|].
  exists q'. split; [done|]. by destruct Hq' as (? & _ & _ & _ & _ & _ & _ & ? & _).
Qed.

End Unbounded_claims.

(** Three values in, three values out. *)
Lemma unbounded_produce_then_consume_witness :
  ∃ q, UnboundedSingleQueue.run (UnboundedSingleQueue.ReqProduce <$> [1; 2; 3])
         UnboundedSingleQueue.UnboundedSingleQueue = Some (q, []) ∧
       ∃ q', UnboundedSingleQueue.run (UnboundedSingleQueue.ReqConsume <$> [0; 0; 0]) q
             = Some (q', [1; 2; 3]).
Proof.
  destruct (unbounded_produce_then_consume [1; 2; 3] [0; 0; 0] eq_refl)
    as (_ & q & Hrun & _ & q' & Hrun' & _).
  exists q. split; [exact Hrun|]. exists q'. exact Hrun'.
Defined.


Section Unbounded_counts.
Import UnboundedSingleQueue.
Context {T : Type} {E : Element T}.

Lemma grow_valid (q q1 : t T) : grow q = Some q1 → valid_ q1 = valid_ q.
Proof.
  unfold grow. case_decide; [|by intros [= <-]].
  cbn. case_match; [|done]. by intros [= <-].
Qed.

Lemma turn_valid (q q1 : t T) : turn q = Some q1 → valid_ q1 = valid_ q.
Proof.
  unfold turn. case_decide; [|by intros [= <-]].
  repeat case_match; try done. by intros [= <-].
Qed.

Lemma Produce_valid v (q q' : t T) x :
  Produce v q = Returns q' x → valid_ q' = S (valid_ q).
Proof.
  unfold Produce. destruct (grow q) as [q1|] eqn:Hgrow; [|done].
  apply grow_valid in Hgrow. repeat case_match; try done.
  intros [= <- _]. cbn. by rewrite Hgrow.
Qed.

Lemma Consume_valid out (q q' : t T) x :
  Consume out q = Returns q' x → valid_ q = S (valid_ q').
Proof.
  unfold Consume. destruct (WaitSemaphore (valid_ q)) as [vl|] eqn:Hwait; [|done].
  apply wait_some in Hwait.
  destruct (turn (set_valid_ vl q)) as [q1|] eqn:Hturn; [|done].
  apply turn_valid in Hturn. repeat case_match; try done.
  intros [= <- _]. cbn. by rewrite Hturn.
Qed.

Lemma run_valid rs : ∀ (q q' : t T) got,
  run rs q = Some (q', got) →
  valid_ q' + consumes rs = valid_ q + produces rs.
Proof.
  induction rs as [|r rs IH]; intros q q' got Hrun.
  - injection Hrun as <- _. cbn. lia.
  - cbn [run] in Hrun.
    destruct (perform r q) as [q1 x| | |] eqn:Hr; try done.
    destruct (run rs q1) as [[q2 got']|] eqn:Hrs; [|done].
    injection Hrun as <- _. apply IH in Hrs.
    destruct r; cbn [perform produces consumes] in *;
      [apply Produce_valid in Hr|apply Consume_valid in Hr]; lia.
Qed.

(** C9.  The available-items semaphore [valid_] is 0 in a new queue, and
    after any sequence of calls that have returned, [n] of them [Produce]
    and [m] of them [Consume], it is [n - m], the number of items
    produced and not yet consumed; [m] is at most [n]. *)
Theorem available_items (rs : list (request T)) (q : t T) (got : list T) :
  run rs UnboundedSingleQueue = Some (q, got) →
  valid_ (UnboundedSingleQueue (T:=T)) = 0 ∧
  valid_ q = produces rs - consumes rs ∧
  consumes rs ≤ produces rs.
Proof.
  intros Hrun%run_valid. change (valid_ UnboundedSingleQueue) with 0 in *. lia.
Qed.

(** Every page in the store has [entries_count] entries. *)
Lemma uniform_insert (m : gmap nat (UnboundedPage T)) a pg :
  uniform_store m → length (entries pg) = entries_count → uniform_store (<[a := pg]> m).
Proof.
  intros Hm Hpg b pg'. rewrite lookup_insert. case_decide; [|by apply Hm].
  by intros [= <-].
Qed.

Lemma uniform_delete (m : gmap nat (UnboundedPage T)) a :
  uniform_store m → uniform_store (delete a m).
Proof.
  intros Hm b pg. rewrite lookup_delete. case_decide; [done|by apply Hm].
Qed.

Lemma uniform_poke (m : gmap nat (UnboundedPage T)) a i x :
  uniform_store m →
  uniform_store (alter (λ page, mkPage (next page) (<[i := x]> (entries page))) a m).
Proof.
  intros Hm b pg. rewrite lookup_alter. case_decide as Hab; [subst b|by apply Hm].
  destruct (m !! a) as [pg0|] eqn:Hb; [|done]. intros [= <-].
  change (length (<[i:=x]> (entries pg0)) = entries_count).
  rewrite length_insert. by apply (Hm a).
Qed.

Lemma grow_uniform (q q1 : t T) :
  grow q = Some q1 → uniform_store (store q) → uniform_store (store q1).
Proof.
  unfold grow. case_decide; [|by intros [= <-]].
  cbn. case_match eqn:Hfull; [|done]. intros [= <-] Hq. cbn.
  assert (uniform_store (<[allocated q := UnboundedPage_new]> (store q))) as Hq1.
  { apply uniform_insert; [done|apply new_page_entries]. }
  apply uniform_insert; [done|]. by apply Hq1 in Hfull.
Qed.

Lemma turn_uniform (q q1 : t T) :
  turn q = Some q1 → uniform_store (store q) → uniform_store (store q1).
Proof.
  unfold turn. case_decide; [|by intros [= <-]].
  repeat case_match; try done; intros [= <-] Hq; cbn;
    repeat case_match; first [by apply uniform_delete|done].
Qed.

Lemma uniform_after r (q q' : t T) :
  uniform_store (store q) → after (perform r q) = Some q' → uniform_store (store q').
Proof.
  intros Hq. destruct r as [v|out]; cbn [perform].
  - unfold Produce. destruct (grow q) as [q1|] eqn:Hgrow; [|done].
    apply grow_uniform in Hgrow; [|done].
    repeat case_match; try done; intros [= <-]; cbn; [done|by apply uniform_poke].
  - unfold Consume. destruct (WaitSemaphore (valid_ q)) as [vl|]; [|done].
    destruct (turn (set_valid_ vl q)) as [q1|] eqn:Hturn; [|done].
    apply turn_uniform in Hturn; [|done].
    repeat case_match; try done; by intros [= <-].
Qed.

Lemma uniform_run rs : ∀ (q q' : t T) got,
  run rs q = Some (q', got) → uniform_store (store q) → uniform_store (store q').
Proof.
  induction rs as [|r rs IH]; intros q q' got Hrun Hq.
  - by injection Hrun as <- _.
  - cbn [run] in Hrun.
    destruct (perform r q) as [q1 x| | |] eqn:Hr; try done.
    destruct (run rs q1) as [[q2 got']|] eqn:Hrs; [|done].
    injection Hrun as <- _. eapply IH; [done|].
    apply (uniform_after r q); [done|]. by rewrite Hr.
Qed.

End Unbounded_counts.

(** Two values produced, one consumed. *)
Lemma available_items_witness :
  let rs := [UnboundedSingleQueue.ReqProduce 1; UnboundedSingleQueue.ReqProduce 2;
             UnboundedSingleQueue.ReqConsume 0] in
  ∃ q, UnboundedSingleQueue.run rs UnboundedSingleQueue.UnboundedSingleQueue = Some (q, [1]) ∧
       UnboundedSingleQueue.valid_ q = 1.
Proof.
  intros rs.
  assert (∃ q, UnboundedSingleQueue.run rs UnboundedSingleQueue.UnboundedSingleQueue
               = Some (q, [1])) as [q Hrun].
  { eexists. vm_compute. reflexivity. }
  exists q. split; [exact Hrun|].
  exact (proj1 (proj2 (available_items rs q [1] Hrun))).
Defined.


Section Unbounded_pages.
Import UnboundedSingleQueue.
Context {T : Type} {E : Element T} {NT : Nothrow T}.

Lemma uniform_fresh : uniform_store (store (UnboundedSingleQueue (T:=T))).
Proof.
  intros a pg. cbn. rewrite lookup_insert. case_decide; [|done].
  intros [= <-]. apply new_page_entries.
Qed.

(** [Consume] blocks on a queue that holds nothing. *)
Lemma Consume_empty (q : t T) out : holds q [] → Consume out q = Blocks.
Proof.
  intros (r & _ & _ & _ & _ & _ & _ & Hvalid & _).
  unfold Consume. by rewrite Hvalid.
Qed.

(** Calls that return keep the queue holding its items, and the pages
    made so far are the full ones and the filling page. *)
Lemma run_holds rs : ∀ (q q' : t T) items got,
  holds q items → run rs q = Some (q', got) →
  (∃ rest, holds q' rest ∧ items ++ produced rs = got ++ rest) ∧
  written q' + entries_count * allocated q'
    = written q + entries_count * allocated q + produces rs ∧
  (0 < written q ∨ 0 < produces rs → 0 < written q').
Proof.
  induction rs as [|r rs IH]; intros q q' items got Hq Hrun.
  - injection Hrun as <- <-. cbn. split_and!; [|lia|lia].
    exists items. by rewrite app_nil_r.
  - cbn [run] in Hrun.
    destruct (perform r q) as [q1 x| | |] eqn:Hr; try done.
    destruct (run rs q1) as [[q2 got']|] eqn:Hrs; [|done].
    injection Hrun as <- <-.
    destruct r as [v|out]; cbn [perform produces produced] in *.
    + destruct (holds_Produce q items v Hq) as (q1' & Hr' & Hq1 & Hal & Hw).
      rewrite Hr in Hr'. injection Hr' as <-.
      destruct (IH q1 q2 _ got' Hq1 Hrs) as ((rest & Hrest & Heq) & Hsum & Hpos).
      split_and!; [exists rest; by rewrite <- Heq, <- app_assoc| |].
      * rewrite Hsum, Hal, Hw. case_decide; lia.
      * intros _. apply Hpos. left. rewrite Hw. case_decide; lia.
    + destruct items as [|y items]; [by rewrite Consume_empty in Hr|].
      destruct (holds_Consume q y items out Hq) as (q1' & Hr' & Hq1 & Hal).
      rewrite Hr in Hr'. injection Hr' as <- <-.
      destruct (IH q1 q2 _ got' Hq1 Hrs) as ((rest & Hrest & Heq) & Hsum & Hpos).
      assert (written q1 = written q) as Hw.
      { clear -Hr. unfold Consume, turn in Hr.
        destruct (WaitSemaphore (valid_ q)); [|done].
        repeat case_match; try done; by simplify_eq. }
      rewrite Hw in *. split_and!; [|by rewrite Hsum, Hal|done].
      exists rest. split; [done|]. cbn. by f_equal.
Qed.

(** First in, first out, for any calls: what the [Consume] calls obtain
    are the first of the values produced, in that order. *)
Lemma unbounded_fifo (rs : list (request T)) (q : t T) (got : list T) :
  run rs UnboundedSingleQueue = Some (q, got) →
  got = take (length got) (produced rs).
Proof.
  intros Hrun.
  destruct (run_holds rs _ _ [] got holds_fresh_unbounded Hrun)
    as ((rest & _ & Heq) & _).
  cbn in Heq. by rewrite Heq, take_app_length.
Qed.

(** C10.  A page has 1023 entries, in a page just made and in every page
    of the store after any calls.  The constructor makes one page, which
    is the filling page and the reading page.  After any calls on a new
    queue that have returned, the pages before the filling page are full
    and the filling page holds [written] of the values produced; a
    further [Produce] takes a new page if the filling page holds 1023
    written values and takes none otherwise.  As long as no more than
    1023 values have been produced, the page made by the constructor is
    the only page ever made. *)
Theorem pages_hold_1023 (rs : list (request T)) (q : t T) (got : list T) (v : T) :
  run rs UnboundedSingleQueue = Some (q, got) →
  entries_count = 1023 ∧
  length (entries (UnboundedPage_new (T:=T))) = 1023 ∧
  (allocated (UnboundedSingleQueue (T:=T)) = 1 ∧
   size (store (UnboundedSingleQueue (T:=T))) = 1 ∧
   reading_ (UnboundedSingleQueue (T:=T)) = Some (filling_ (UnboundedSingleQueue (T:=T)))) ∧
  (∀ a pg, store q !! a = Some pg → length (entries pg) = 1023) ∧
  written q + 1023 * (allocated q - 1) = produces rs ∧
  (∃ q', Produce v q = Returns q' v ∧
         allocated q' = if decide (written q = 1023)
                        then S (allocated q) else allocated q) ∧
  (produces rs ≤ 1023 → allocated q = 1).
Proof.
  intros Hrun.
  split; [done|]. split; [apply new_page_entries|].
  split; [by split_and!|].
  destruct (run_holds rs _ _ [] got holds_fresh_unbounded Hrun)
    as ((rest & Hq & _) & Hsum & Hpos).
  change (written UnboundedSingleQueue) with 0 in Hsum.
  change (allocated UnboundedSingleQueue) with 1 in Hsum.
  change entries_count with 1023 in Hsum.
  assert (0 < allocated q) as Hal.
  { destruct Hq as (? & _ & _ & _ & _ & _ & ? & _). lia. }
  split_and!.
  - apply (uniform_run _ _ _ _ Hrun), uniform_fresh.
  - lia.
  - destruct (holds_Produce q _ v Hq) as (q' & Hq' & _ & Hal' & _). by exists q'.
  - intros Hle. destruct (decide (0 < produces rs)) as [Hsome|Hnone].
    + specialize (Hpos (or_intror Hsome)). lia.
    + lia.
Qed.

End Unbounded_pages.

(** Three values produced and one consumed: one page. *)
Lemma pages_hold_1023_witness :
  let rs := [UnboundedSingleQueue.ReqProduce 1; UnboundedSingleQueue.ReqProduce 2;
             UnboundedSingleQueue.ReqConsume 0; UnboundedSingleQueue.ReqProduce 3] in
  ∃ q, UnboundedSingleQueue.run rs UnboundedSingleQueue.UnboundedSingleQueue = Some (q, [1]) ∧
       UnboundedSingleQueue.written q = 3 ∧
       UnboundedSingleQueue.allocated q = 1.
Proof.
  intros rs.
  assert (∃ q, UnboundedSingleQueue.run rs UnboundedSingleQueue.UnboundedSingleQueue
               = Some (q, [1])) as [q Hrun].
  { eexists. vm_compute. reflexivity. }
  destruct (pages_hold_1023 rs q [1] 4 Hrun) as (_ & _ & _ & _ & Hsum & _ & Hone).
  exists q. split; [exact Hrun|].
  assert (UnboundedSingleQueue.allocated q = 1) as Hal.
  { apply Hone. cbn. lia. }
  split; [|exact Hal]. rewrite Hal in Hsum. cbn in Hsum. lia.
Defined.

(** At the edge of a page: 1023 values fit the first page, the 1024th
    takes a second one, the 2047th a third. *)
Example page_boundary :
  let pages n :=
    (λ r, UnboundedSingleQueue.allocated r.1) <$>
    UnboundedSingleQueue.run (UnboundedSingleQueue.ReqProduce <$> seq 0 n)
      UnboundedSingleQueue.UnboundedSingleQueue in
  pages 1023 = Some 1 ∧ pages 1024 = Some 2 ∧ pages 2046 = Some 2 ∧ pages 2047 = Some 3.
Proof. vm_compute. by split_and!. Qed.


Section Unbounded_transfers.
Import UnboundedSingleQueue.
Context {T : Type} {E : Element T}.

Opaque entries_count.

Ltac fields :=
  unfold new_page, SetFilling, SetReading, set_store, set_valid_,
    set_filling_current_, set_reading_current_, deref, poke;
  cbn [store allocated valid_ filling_ reading_ filling_current_ filling_end_
       reading_current_ reading_end_ fst snd].

(** Moving past the entry at [upto] of the last page without writing it
    extends the span by what the entry holds. *)
Lemma span_skip (m : gmap nat (UnboundedPage T)) page from last upto items pg slot :
  span m page from last upto items →
  m !! last = Some pg → entries pg !! upto = Some slot →
  span m page from last (S upto) (items ++ [slot]).
Proof.
  intros Hspan Hpg Hslot.
  apply span_bounds in Hspan as Hb. destruct Hb as (Hle & _ & _ & _ & pg' & Hpg' & Hlen).
  assert (pg' = pg) as -> by congruence.
  apply span_frame with
    (alter (λ pg, mkPage (next pg) (<[upto := slot]> (entries pg))) last m).
  - apply span_snoc; [done|]. apply lookup_lt_Some in Hslot. lia.
  - intros a _. rewrite lookup_alter. case_decide as Ha; [subst a|done].
    rewrite Hpg. cbn. rewrite list_insert_id by done. by destruct pg.
Qed.

(** [Produce] on a queue that holds its items.  The slot it assigns to
    is the next one of the filling page, or the first one of a new page;
    by then the cursor is past it.  When the assignment throws, the slot
    stays as it was and [valid_] is not posted. *)
Lemma Produce_cases (q : t T) items v :
  holds q items →
  ∃ slot q1 q2,
    Produce v q = (if assign_throws slot v then Throws q1 else Returns q2 v) ∧
    holds q2 (items ++ [v]) ∧
    valid_ q1 = valid_ q ∧
    holds (set_valid_ (S (valid_ q)) q1) (items ++ [slot]) ∧
    (allocated q1 = allocated q2 ∧
     allocated q2 = if decide (written q = entries_count)
                    then S (allocated q) else allocated q) ∧
    (written q1 = written q2 ∧
     written q2 = if decide (written q = entries_count) then 1 else S (written q)).
Proof.
  intros (r & Hr & Hrc & Hre & Hfc & Hfe & Hal & Hvalid & Hspan).
  destruct q as [m al vl f rd [f' j] fe [r' i] re]. cbn in * |-. subst.
  apply span_bounds in Hspan as Hb. destruct Hb as (Hrf & Hi & Hj & _ & pg & Hpg & Hlen).
  unfold Produce, grow, written. cbn [filling_current_ filling_end_ snd].
  destruct (decide (j = entries_count)) as [->|Hne].
  - rewrite decide_True by done. fields.
    rewrite lookup_insert_ne, Hpg by lia. fields.
    rewrite lookup_insert_ne by lia. rewrite lookup_insert_eq. cbn [mbind option_bind].
    unfold UnboundedPage_new at 1. cbn [entries].
    rewrite lookup_replicate_2 by apply entries_count_pos.
    eexists T_default, _, _. split; [reflexivity|].
    split_and!; try done.
    + exists r. cbn. split_and!; try done; try lia.
      * rewrite length_app. cbn. lia.
      * apply (span_grow m _ r i f items al
                 (mkPage None (<[0 := v]> (replicate entries_count T_default))) v);
          [exact Hspan|exact Hal|..].
        -- intros b Hb. rewrite lookup_alter_ne, !lookup_insert_ne by lia. done.
        -- intros pg' Hpg'. rewrite lookup_alter_ne, lookup_insert_eq by lia. congruence.
        -- rewrite lookup_alter_eq, lookup_insert_ne, lookup_insert_eq by lia. reflexivity.
        -- change (length (<[0:=v]> (replicate entries_count T_default)) = entries_count).
           by rewrite length_insert, length_replicate.
        -- apply list_lookup_insert_eq. rewrite length_replicate. apply entries_count_pos.
    + exists r. cbn. split_and!; try done; try lia.
      * rewrite length_app. cbn. lia.
      * apply (span_grow m _ r i f items al UnboundedPage_new T_default);
          [exact Hspan|exact Hal|..].
        -- intros b Hb. rewrite !lookup_insert_ne by lia. done.
        -- intros pg' Hpg'. rewrite lookup_insert_eq. congruence.
        -- rewrite lookup_insert_ne, lookup_insert_eq by lia. reflexivity.
        -- apply new_page_entries.
        -- apply lookup_replicate_2, entries_count_pos.
  - rewrite decide_False by congruence. fields.
    rewrite Hpg. cbn [mbind option_bind].
    destruct (lookup_lt_is_Some_2 (entries pg) j) as [slot Hslot]; [lia|].
    rewrite Hslot.
    eexists slot, _, _. split; [reflexivity|].
    split_and!; try done.
    + exists r. cbn. split_and!; try done.
      * rewrite length_app. cbn. lia.
      * apply span_snoc; [done|lia].
    + exists r. cbn. split_and!; try done.
      * rewrite length_app. cbn. lia.
      * by apply span_skip with pg.
Qed.

(** [Consume] on a queue that holds an item.  By the time it assigns,
    [valid_] is one lower and the cursor is past the item, whether or
    not the assignment throws. *)
Lemma Consume_cases (q : t T) x items out :
  holds q (x :: items) →
  ∃ q', Consume out q = (if assign_throws out x then Throws q' else Returns q' x) ∧
        holds q' items ∧ allocated q' = allocated q ∧ written q' = written q.
Proof.
  intros (r & Hr & Hrc & Hre & Hfc & Hfe & Hal & Hvalid & Hspan).
  destruct q as [m al vl f rd [f' j] fe [r' i] re]. cbn in * |-. subst.
  unfold Consume, turn. cbn [valid_ WaitSemaphore Semaphore.wait Linux.wait].
  change (WaitSemaphore (S (length items))) with (Some (length items)).
  fields.
  destruct (decide (i = entries_count)) as [->|Hne].
  - rewrite decide_True by done.
    destruct (span_turn _ _ _ _ _ _ Hspan) as (pg & r' & Hpg & Hnext & Hlt & Htail).
    cbn [mbind option_bind]. rewrite Hpg, Hnext.
    apply span_head in Htail as [(pg' & Hpg' & Hx) Htail']; [|apply entries_count_pos].
    fields.
    rewrite lookup_delete_ne, Hpg' by lia. cbn [mbind option_bind].
    rewrite Hx.
    eexists. split; [reflexivity|]. split; [|done].
    exists r'. cbn. split_and!; try done.
    apply span_frame with m; [done|].
    intros a Ha. rewrite lookup_delete_ne by lia. done.
  - rewrite decide_False by congruence.
    apply span_bounds in Hspan as Hb. destruct Hb as (_ & Hi & _).
    apply span_head in Hspan as [(pg & Hpg & Hx) Htail]; [|lia].
    fields.
    rewrite Hpg. cbn [mbind option_bind]. rewrite Hx.
    eexists. split; [reflexivity|]. split; [|done].
    exists r. cbn. by split_and!.
Qed.

(** [valid_] has no part in [Produce] but the closing post. *)
Lemma Produce_set_valid v n (q : t T) :
  Produce v (set_valid_ n q)
  = match Produce v q with
    | Returns q' x => Returns (set_valid_ (S n) q') x
    | Throws q' => Throws (set_valid_ n q')
    | Blocks => Blocks
    | Faults => Faults
    end.
Proof.
  assert (grow (set_valid_ n q) = set_valid_ n <$> grow q) as Hgrow.
  { destruct q as [m al vl f rd fc fe rc re]. unfold grow. fields.
    case_decide; [|done]. fields. by case_match. }
  unfold Produce. rewrite Hgrow. destruct (grow q) as [q1|]; [|done].
  destruct q1 as [m al vl f rd fc fe rc re]. cbn [fmap option_fmap option_map]. fields.
  destruct (m !! fc.1 ≫= _); [|done]. by case_match.
Qed.

(** Nor in [Consume] but the opening wait. *)
Lemma Consume_set_valid out a b (q : t T) :
  Consume out (set_valid_ (S a) q)
  = match Consume out (set_valid_ (S b) q) with
    | Returns q' x => Returns (set_valid_ a q') x
    | Throws q' => Throws (set_valid_ a q')
    | Blocks => Blocks
    | Faults => Faults
    end.
Proof.
  assert (∀ c, turn (set_valid_ c q) = set_valid_ c <$> turn q) as Hturn.
  { intros c. destruct q as [m al vl f rd fc fe rc re]. unfold turn. fields.
    case_decide; [|done]. destruct (rd ≫= _) as [pg|]; [|done]. by destruct (next pg). }
  unfold Consume. cbn [valid_ set_valid_].
  change (WaitSemaphore (S a)) with (Some a). change (WaitSemaphore (S b)) with (Some b).
  cbv beta iota.
  change (set_valid_ a (set_valid_ (S a) q)) with (set_valid_ a q).
  change (set_valid_ b (set_valid_ (S b) q)) with (set_valid_ b q).
  rewrite !Hturn. destruct (turn q) as [q1|]; [|done].
  destruct q1 as [m al vl f rd fc fe rc re]. cbn [fmap option_fmap option_map]. fields.
  destruct (m !! rc.1 ≫= _); [|done]. by case_match.
Qed.

Lemma Consume_zero out (q : t T) : valid_ q = 0 → Consume out q = Blocks.
Proof. intros Hq. unfold Consume. by rewrite Hq. Qed.

Lemma set_valid_same (q : t T) : set_valid_ (valid_ q) q = q.
Proof. by destruct q. Qed.

Lemma holds_valid (q : t T) items : holds q items → valid_ q = length items.
Proof. by intros (r & _ & _ & _ & _ & _ & _ & Hvalid & _). Qed.

(** X13.  [Consume] of the unbounded queue does not roll back.  When
    the assignment [out = *(reading_current_++)] throws, [valid_] is
    already one lower and the cursor is already past the item: the item
    is off the queue although the caller did not obtain it, and the next
    [Consume] is given the item after it, or is suspended if there is
    none. *)
Theorem failed_Consume_drops_item (q q' : t T) (x : T) (items : list T) (out : T) :
  holds q (x :: items) → Consume out q = Throws q' →
  assign_throws out x = true ∧
  holds q' items ∧ valid_ q' = length items ∧
  ∀ out',
    match items with
    | [] => Consume out' q' = Blocks
    | y :: rest =>
        ∃ q'', Consume out' q' = (if assign_throws out' y then Throws q'' else Returns q'' y)
    end.
Proof.
  intros Hq Hthrow.
  destruct (Consume_cases q x items out Hq) as (q0 & Hcall & Hq0 & _).
  rewrite Hthrow in Hcall.
  destruct (assign_throws out x); [|done]. injection Hcall as ->.
  pose proof (holds_valid _ _ Hq0) as Hvalid.
  split_and!; try done.
  intros out'. destruct items as [|y rest].
  - by apply Consume_zero.
  - destruct (Consume_cases q0 y rest out' Hq0) as (q1 & Hnext & _). by exists q1.
Qed.

(** X14.  Nor does [Produce].  When the assignment
    [*(filling_current_++) = val] throws, the cursor is already past the
    slot, on a new page if the filling page was full, and [valid_] has
    not been posted.  The slot keeps what it held, and the queue is one
    post short of handing it out as an item: after the next [Produce]
    that returns, [valid_] counts one item more, which is the slot that
    was passed over, and the value just produced waits behind it for a
    post of its own.  On a queue that was empty, the next [Consume]
    obtains what the slot held and the one after is suspended. *)
Theorem failed_Produce_leaves_gap (q q1 : t T) (items : list T) (bad : T) :
  holds q items → Produce bad q = Throws q1 →
  valid_ q1 = length items ∧
  written q1 = (if decide (written q = entries_count) then 1 else S (written q)) ∧
  ∃ slot,
    assign_throws slot bad = true ∧
    holds (set_valid_ (S (length items)) q1) (items ++ [slot]) ∧
    ∀ v q2 x, Produce v q1 = Returns q2 x →
      x = v ∧ valid_ q2 = S (length items) ∧
      holds (set_valid_ (S (S (length items))) q2) (items ++ [slot; v]) ∧
      (items = [] → ∀ out, ∃ q3,
         Consume out q2 = (if assign_throws out slot then Throws q3 else Returns q3 slot) ∧
         valid_ q3 = 0 ∧ ∀ out', Consume out' q3 = Blocks).
Proof.
  intros Hq Hthrow.
  destruct (Produce_cases q items bad Hq)
    as (slot & q1' & q2' & Hcall & _ & Hvalid & Hgap & [Hal _] & [Hw Hw']).
  rewrite Hthrow in Hcall.
  destruct (assign_throws slot bad) eqn:Hbad; [|done]. injection Hcall as <-.
  rewrite (holds_valid _ _ Hq) in Hvalid, Hgap.
  split; [done|]. split; [congruence|].
  exists slot. split; [done|]. split; [done|].
  intros v q2 x Hnext.
  destruct (Produce_cases _ (items ++ [slot]) v Hgap)
    as (slot' & q1a & q2a & Hcall & Hq2a & _).
  pose proof (Produce_set_valid v (length items) (set_valid_ (S (length items)) q1)) as Hshift.
  change (set_valid_ (length items) (set_valid_ (S (length items)) q1))
    with (set_valid_ (length items) q1) in Hshift.
  assert (set_valid_ (length items) q1 = q1) as Hq1.
  { rewrite <- Hvalid. apply set_valid_same. }
  rewrite Hq1, Hnext, Hcall in Hshift.
  destruct (assign_throws slot' v); [done|]. injection Hshift as -> ->.
  rewrite <- app_assoc in Hq2a. cbn [app] in Hq2a.
  pose proof (holds_valid _ _ Hq2a) as Hvalid2. rewrite length_app in Hvalid2.
  cbn [length] in Hvalid2.
  assert (set_valid_ (S (S (length items))) q2a = q2a) as Hsame.
  { rewrite <- (set_valid_same q2a) at 2. f_equal. lia. }
  split; [done|]. split; [done|].
  change (set_valid_ (S (S (length items))) (set_valid_ (S (length items)) q2a))
    with (set_valid_ (S (S (length items))) q2a).
  rewrite Hsame. split; [done|].
  intros -> out. cbn [length app] in *.
  destruct (Consume_cases q2a slot [v] out Hq2a) as (q3a & Hread & _).
  exists (set_valid_ 0 q3a).
  rewrite (Consume_set_valid out 0 1), Hsame, Hread.
  split; [by destruct (assign_throws out slot)|]. split; [done|].
  intros out'. by apply Consume_zero.
Qed.

Transparent entries_count.

End Unbounded_transfers.

Section Unbounded_reclaim.
Import UnboundedSingleQueue.
Context {T : Type} {E : Element T}.

Opaque entries_count.

Ltac fields :=
  unfold new_page, SetFilling, SetReading, set_store, set_valid_,
    set_filling_current_, set_reading_current_, deref, poke;
  cbn [store allocated valid_ filling_ reading_ filling_current_ filling_end_
       reading_current_ reading_end_ fst snd].

Lemma linked_poke (m : gmap nat (UnboundedPage T)) r f a i x :
  linked m r f →
  linked (alter (λ page, mkPage (next page) (<[i := x]> (entries page))) a m) r f.
Proof.
  intros [Hdom Hnext]. split.
  - intros b. rewrite <- Hdom, lookup_alter. case_decide; [subst b|done].
    by rewrite fmap_is_Some.
  - intros b pg. rewrite lookup_alter. case_decide; [subst b|by apply Hnext].
    destruct (m !! a) as [pg0|] eqn:Hpg0; [|done]. cbn [fmap option_fmap option_map].
    intros [= <-]. cbn [next]. by apply Hnext.
Qed.

(** A new page, linked from the page that was the last one. *)
Lemma linked_grow (m : gmap nat (UnboundedPage T)) r f full :
  linked m r f → r ≤ f →
  linked (<[f := mkPage (Some (S f)) (entries full)]> (<[S f := UnboundedPage_new]> m))
         r (S f).
Proof.
  intros [Hdom Hnext] Hrf. split.
  - intros a. rewrite !lookup_insert. repeat case_decide; subst.
    + split; [lia|by eexists].
    + split; [lia|by eexists].
    + rewrite Hdom. lia.
  - intros a pg. rewrite !lookup_insert. repeat case_decide; subst; try lia.
    + by intros [= <-].
    + by intros [= <-].
    + intros Hpg. rewrite (Hnext a pg Hpg). by rewrite decide_False.
Qed.

(** The drained page goes; the page it is linked to is the next one made. *)
Lemma linked_turn (m : gmap nat (UnboundedPage T)) r f pg to :
  linked m r f → m !! r = Some pg → next pg = Some to →
  to = S r ∧ r < f ∧ linked (delete r m) (S r) f.
Proof.
  intros [Hdom Hnext] Hpg Hto.
  rewrite (Hnext r pg Hpg) in Hto. case_decide as Hrf; [done|]. injection Hto as <-.
  assert (r ≤ r ≤ f) as Hr by (apply Hdom; by eexists).
  split; [done|]. split; [lia|]. split.
  - intros a. rewrite lookup_delete. case_decide; subst.
    + split; [by intros []|lia].
    + rewrite Hdom. lia.
  - intros a pg'. rewrite lookup_delete. case_decide; [done|]. apply Hnext.
Qed.

Lemma chained_fresh : chained (UnboundedSingleQueue (T:=T)).
Proof.
  exists 0. cbn. split_and!; try done. split.
  - intros a. rewrite lookup_insert. case_decide; subst.
    + split; [lia|by eexists].
    + rewrite lookup_empty. split; [by intros []|lia].
  - intros a pg. rewrite lookup_insert. case_decide; [subst a|done]. by intros [= <-].
Qed.

Lemma chained_Produce v (q q' : t T) :
  chained q → after (Produce v q) = Some q' →
  chained q' ∧ reading_ q' = reading_ q ∧ drained q' = drained q.
Proof.
  intros (r & Hr & Hrf & Hal & Hlinked).
  destruct q as [m al vl f rd fc fe rc re]. cbn in * |-. subst rd al.
  unfold Produce, grow, drained. fields.
  case_decide.
  - fields. destruct (<[S f:=UnboundedPage_new]> m !! f) as [full|] eqn:Hfull; [|done].
    fields. rewrite lookup_insert_ne by lia. rewrite lookup_insert_eq. cbn [mbind option_bind].
    destruct (entries UnboundedPage_new !! 0) as [slot|]; [|done].
    assert (linked (<[f := mkPage (Some (S f)) (entries full)]>
                      (<[S f := UnboundedPage_new]> m)) r (S f)) as Hgrown
      by by apply linked_grow.
    destruct (assign_throws slot v); intros [= <-]; (split; [|done]);
      exists r; cbn; split_and!; try done; try lia.
    by apply linked_poke.
  - fields. destruct (m !! fc.1 ≫= _) as [slot|]; [|done].
    destruct (assign_throws slot v); intros [= <-]; (split; [|done]);
      exists r; cbn; split_and!; try done.
    by apply linked_poke.
Qed.

Lemma chained_Consume out (q q' : t T) items :
  holds q items → chained q → after (Consume out q) = Some q' →
  chained q' ∧
  ∃ r r', reading_ q = Some r ∧ reading_ q' = Some r' ∧
          drained q' + entries_count * r' = S (drained q + entries_count * r).
Proof.
  intros (r0 & Hr0 & Hrc & Hre & _) (r & Hr & Hrf & Hal & Hlinked).
  destruct q as [m al vl f rd fc fe [r' i] re0]. cbn in * |-.
  assert (r0 = r) as -> by congruence. subst rd al r' re0.
  unfold Consume, turn, drained. fields.
  destruct vl as [|vl]; [done|]. change (WaitSemaphore (S vl)) with (Some vl). fields.
  destruct (decide (i = entries_count)) as [->|Hne].
  - rewrite decide_True by done. cbn [mbind option_bind].
    destruct (m !! r) as [pg|] eqn:Hpg; [|done].
    destruct (next pg) as [to|] eqn:Hto; [|done].
    destruct (linked_turn m r f pg to Hlinked Hpg Hto) as (-> & Hlt & Hlinked').
    fields. destruct (delete r m !! S r ≫= _) as [slot|]; [|done].
    destruct (assign_throws out slot); intros [= <-];
      (split; [exists (S r); cbn; split_and!; try done; lia|]);
      exists r, (S r); cbn; split_and!; try done; lia.
  - rewrite decide_False by congruence. fields.
    destruct (m !! r ≫= _) as [slot|]; [|done].
    destruct (assign_throws out slot); intros [= <-];
      (split; [exists r; cbn; by split_and!|]);
      exists r, r; cbn; split_and!; try done; lia.
Qed.

(** Calls that return keep the queue holding its items and its pages
    chained; the cursors count what was produced and what was consumed. *)
Lemma run_pages rs : ∀ (q q' : t T) items got r,
  holds q items → chained q → reading_ q = Some r →
  run rs q = Some (q', got) →
  length got = consumes rs ∧
  (∃ rest, holds q' rest ∧ items ++ produced rs = got ++ rest) ∧
  chained q' ∧
  written q' + entries_count * allocated q'
    = written q + entries_count * allocated q + produces rs ∧
  (0 < written q ∨ 0 < produces rs → 0 < written q') ∧
  ∃ r', reading_ q' = Some r' ∧
        drained q' + entries_count * r' = drained q + entries_count * r + consumes rs.
Proof.
  induction rs as [|c rs IH]; intros q q' items got r Hq Hch Hr Hrun.
  - injection Hrun as <- <-. cbn. split_and!; [done| |done|lia|lia|].
    + exists items. by rewrite app_nil_r.
    + exists r. split; [done|lia].
  - cbn [run] in Hrun.
    destruct (perform c q) as [q1 x| | |] eqn:Hcall; try done.
    destruct (run rs q1) as [[q2 got']|] eqn:Hrs; [|done].
    injection Hrun as <- <-.
    destruct c as [v|out]; cbn [perform produces produced consumes] in *.
    + destruct (Produce_cases q items v Hq)
        as (slot & q1a & q2a & Hcases & Hq1 & _ & _ & [_ Hal] & [_ Hw]).
      rewrite Hcall in Hcases.
      destruct (assign_throws slot v); [done|]. injection Hcases as <- _.
      destruct (chained_Produce v q q1 Hch) as (Hch1 & Hr1 & Hd1); [by rewrite Hcall|].
      rewrite Hr in Hr1.
      destruct (IH q1 q2 _ got' r Hq1 Hch1 Hr1 Hrs)
        as (Hlen & (rest & Hrest & Heq) & Hch2 & Hsum & Hpos & r' & Hr' & Hread).
      split_and!; [done| |done| | |].
      * exists rest. by rewrite <- Heq, <- app_assoc.
      * rewrite Hsum, Hal, Hw. case_decide; lia.
      * intros _. apply Hpos. left. rewrite Hw. case_decide; lia.
      * exists r'. split; [done|]. rewrite Hread, Hd1. lia.
    + destruct items as [|y items].
      { rewrite Consume_zero in Hcall; [done|]. by apply holds_valid in Hq. }
      destruct (Consume_cases q y items out Hq) as (q1a & Hcases & Hq1 & Hal & Hw).
      rewrite Hcall in Hcases.
      destruct (assign_throws out y); [done|]. injection Hcases as <- <-.
      destruct (chained_Consume out q q1 _ Hq Hch) as (Hch1 & r0 & r1 & Hr0 & Hr1 & Hd1);
        [by rewrite Hcall|].
      assert (r0 = r) as -> by congruence.
      destruct (IH q1 q2 _ got' r1 Hq1 Hch1 Hr1 Hrs)
        as (Hlen & (rest & Hrest & Heq) & Hch2 & Hsum & Hpos & r' & Hr' & Hread).
      rewrite Hw, Hal in *.
      split_and!; [cbn; by f_equal| |done|done|done|].
      * exists rest. split; [done|]. cbn. by f_equal.
      * exists r'. split; [done|]. lia.
Qed.

Lemma run_fresh rs (q : t T) got :
  run rs UnboundedSingleQueue = Some (q, got) →
  length got = consumes rs ∧
  (∃ rest, holds q rest ∧ produced rs = got ++ rest) ∧
  chained q ∧
  written q + entries_count * allocated q = entries_count + produces rs ∧
  (0 < produces rs → 0 < written q) ∧
  ∃ r, reading_ q = Some r ∧ drained q + entries_count * r = consumes rs.
Proof.
  intros Hrun.
  destruct (run_pages rs _ _ [] got 0 holds_fresh_unbounded chained_fresh eq_refl Hrun)
    as (Hlen & Hrest & Hch & Hsum & Hpos & r & Hr & Hread).
  change (written UnboundedSingleQueue) with 0 in *.
  change (allocated UnboundedSingleQueue) with 1 in *.
  change (drained UnboundedSingleQueue) with 0 in *.
  split_and!; [done|done|done|lia| |].
  - intros Hsome. apply Hpos. by right.
  - exists r. split; [done|lia].
Qed.

(** X11.  First in, first out, whatever the elements and however the
    calls alternate: after any calls on a new queue that have returned,
    the [Consume] calls have obtained, in order, the first of the values
    handed to the [Produce] calls, one each. *)
Theorem unbounded_fifo_returned (rs : list (request T)) (q : t T) (got : list T) :
  run rs UnboundedSingleQueue = Some (q, got) →
  length got = consumes rs ∧
  got = take (consumes rs) (produced rs) ∧
  ∀ i, i < consumes rs → got !! i = produced rs !! i.
Proof.
  intros (Hlen & (rest & _ & Heq) & _)%run_fresh.
  split; [done|]. rewrite Heq, <- Hlen. split; [by rewrite take_app_length|].
  intros i Hi. by rewrite lookup_app_l.
Qed.

(** X12.  After any calls on a new queue that have returned, a further
    call dereferences no null or dangling page.  [Produce] comes to its
    assignment, whatever the backlog.  [Consume] is suspended exactly
    when every value produced has been consumed; otherwise it comes to
    assign the oldest value not yet consumed, which is the value of the
    [Produce] call with the number of the [Consume] calls made so far. *)
Theorem unbounded_next_call (rs : list (request T)) (q : t T) (got : list T) (v out : T) :
  run rs UnboundedSingleQueue = Some (q, got) →
  (∃ slot q1 q2,
     Produce v q = (if assign_throws slot v then Throws q1 else Returns q2 v)) ∧
  match produced rs !! consumes rs with
  | Some x =>
      ∃ q', Consume out q = (if assign_throws out x then Throws q' else Returns q' x)
  | None => Consume out q = Blocks ∧ consumes rs = produces rs
  end.
Proof.
  intros Hrun. pose proof (run_valid _ _ _ _ Hrun) as Hcount.
  change (valid_ UnboundedSingleQueue) with 0 in Hcount.
  apply run_fresh in Hrun as (Hlen & (rest & Hq & Heq) & _).
  split.
  - destruct (Produce_cases q rest v Hq) as (slot & q1 & q2 & Hcall & _).
    by exists slot, q1, q2.
  - rewrite Heq, <- Hlen, lookup_app_r, Nat.sub_diag by done.
    destruct rest as [|x rest]; cbn.
    + apply holds_valid in Hq as Hvalid. cbn in Hvalid.
      split; [by apply Consume_zero|lia].
    + destruct (Consume_cases q x rest out Hq) as (q' & Hcall & _). by exists q'.
Qed.

(** X15.  The consumer frees each page when it moves on from it, and no
    other.  After any calls on a new queue that have returned, the pages
    in the store are those from the reading page to the last one made,
    the filling page; the pages made before the reading page are gone,
    1023 values consumed from each.  The pages still there are at most
    one more than the values waiting need: a queue with nothing waiting
    is down to its one page. *)
Theorem drained_pages_are_freed (rs : list (request T)) (q : t T) (got : list T) :
  run rs UnboundedSingleQueue = Some (q, got) →
  ∃ r, reading_ q = Some r ∧
       S (filling_ q) = allocated q ∧
       (∀ a, is_Some (store q !! a) ↔ r ≤ a < allocated q) ∧
       size (store q) = allocated q - r ∧
       drained q + entries_count * r = consumes rs ∧
       drained q ≤ entries_count ∧
       entries_count * (size (store q) - 1) < valid_ q + entries_count ∧
       (valid_ q = 0 → size (store q) = 1).
Proof.
  intros Hrun. pose proof (run_valid _ _ _ _ Hrun) as Hcount.
  change (valid_ UnboundedSingleQueue) with 0 in Hcount.
  apply run_fresh in Hrun
    as (Hlen & (rest & Hq & Heq) & (r & Hr & Hrf & Hal & Hdom & _) & Hsum & Hpos
        & r' & Hr' & Hread).
  assert (r' = r) as -> by congruence.
  assert (drained q ≤ entries_count) as Hdrained.
  { destruct Hq as (r0 & _ & _ & _ & _ & _ & _ & _ & Hspan).
    by apply span_bounds in Hspan as (_ & ? & _). }
  assert (written q ≤ entries_count) as Hwritten.
  { destruct Hq as (r0 & _ & _ & _ & _ & _ & _ & _ & Hspan).
    by apply span_bounds in Hspan as (_ & _ & ? & _). }
  assert (size (store q) = allocated q - r) as Hsize.
  { rewrite <- size_dom.
    assert (dom (store q) = set_seq (C:=gset nat) r (allocated q - r)) as ->.
    { apply set_eq. intros a. rewrite elem_of_dom, elem_of_set_seq, Hdom. lia. }
    apply size_set_seq. }
  pose proof entries_count_pos as HN.
  exists r. split_and!; try done.
  - intros a. rewrite Hdom. lia.
  - rewrite Hsize. destruct (decide (0 < produces rs)) as [Hsome|Hnone].
    + specialize (Hpos Hsome). nia.
    + assert (allocated q = 1) by nia. nia.
  - intros Hnone. rewrite Hsize.
    destruct (decide (0 < produces rs)) as [Hsome|Hno].
    + specialize (Hpos Hsome). nia.
    + nia.
Qed.

Transparent entries_count.

End Unbounded_reclaim.

(** Calls that alternate: three values in, two out. *)
Lemma unbounded_fifo_returned_witness :
  let rs := [UnboundedSingleQueue.ReqProduce 1; UnboundedSingleQueue.ReqConsume 0;
             UnboundedSingleQueue.ReqProduce 2; UnboundedSingleQueue.ReqProduce 3;
             UnboundedSingleQueue.ReqConsume 0] in
  ∃ q got, UnboundedSingleQueue.run rs UnboundedSingleQueue.UnboundedSingleQueue
             = Some (q, got) ∧ got = [1; 2].
Proof.
  intros rs.
  assert (∃ q, UnboundedSingleQueue.run rs UnboundedSingleQueue.UnboundedSingleQueue
               = Some (q, [1; 2])) as [q Hrun].
  { eexists. vm_compute. reflexivity. }
  exists q, [1; 2]. split; [exact Hrun|].
  exact (proj1 (proj2 (unbounded_fifo_returned rs q [1; 2] Hrun))).
Defined.

(** Two values in, one out: the next [Consume] obtains the second. *)
Lemma unbounded_next_call_witness :
  let rs := [UnboundedSingleQueue.ReqProduce 1; UnboundedSingleQueue.ReqProduce 2;
             UnboundedSingleQueue.ReqConsume 0] in
  ∃ q q', UnboundedSingleQueue.run rs UnboundedSingleQueue.UnboundedSingleQueue
            = Some (q, [1]) ∧
          UnboundedSingleQueue.Consume 0 q = UnboundedSingleQueue.Returns q' 2.
Proof.
  intros rs.
  assert (∃ q, UnboundedSingleQueue.run rs UnboundedSingleQueue.UnboundedSingleQueue
               = Some (q, [1])) as [q Hrun].
  { eexists. vm_compute. reflexivity. }
  destruct (unbounded_next_call rs q [1] 3 0 Hrun) as [_ [q' Hnext]].
  exists q, q'. split; [exact Hrun|exact Hnext].
Defined.

(** Two values in; the caller's variable is sealed: the first value is
    gone, the next [Consume] obtains the second. *)
Lemma failed_Consume_drops_item_witness :
  let rs := [UnboundedSingleQueue.ReqProduce (Some 1);
             UnboundedSingleQueue.ReqProduce (Some 2)] in
  ∃ q q' q'',
    UnboundedSingleQueue.run (E:=sealed) rs
      (UnboundedSingleQueue.UnboundedSingleQueue (E:=sealed)) = Some (q, []) ∧
    UnboundedSingleQueue.Consume (E:=sealed) None q = UnboundedSingleQueue.Throws q' ∧
    UnboundedSingleQueue.Consume (E:=sealed) (Some 0) q'
      = UnboundedSingleQueue.Returns q'' (Some 2).
Proof.
  intros rs.
  assert (∃ q, UnboundedSingleQueue.run (E:=sealed) rs
                 (UnboundedSingleQueue.UnboundedSingleQueue (E:=sealed)) = Some (q, []))
    as [q Hrun].
  { eexists. vm_compute. reflexivity. }
  destruct (run_fresh (E:=sealed) rs q [] Hrun) as (_ & (rest & Hq & Heq) & _).
  cbn in Heq. subst rest.
  destruct (Consume_cases (E:=sealed) q (Some 1) [Some 2] None Hq) as (q' & Hthrow & _).
  destruct (failed_Consume_drops_item (E:=sealed) q q' (Some 1) [Some 2] None Hq Hthrow)
    as (_ & _ & _ & Hnext).
  destruct (Hnext (Some 0)) as [q'' Hread].
  exists q, q', q''. split; [exact Hrun|]. split; [exact Hthrow|exact Hread].
Defined.

(** A new queue of brittle elements.  [Produce(None)] throws; the value
    5 produced next is not what the consumer obtains: it obtains the
    default-constructed entry that was passed over, and 5 stays behind. *)
Lemma failed_Produce_leaves_gap_witness :
  let q := UnboundedSingleQueue.UnboundedSingleQueue (E:=brittle) in
  ∃ q1 q2 q3,
    UnboundedSingleQueue.Produce (E:=brittle) None q = UnboundedSingleQueue.Throws q1 ∧
    UnboundedSingleQueue.Produce (E:=brittle) (Some 5) q1
      = UnboundedSingleQueue.Returns q2 (Some 5) ∧
    UnboundedSingleQueue.Consume (E:=brittle) (Some 9) q2
      = UnboundedSingleQueue.Returns q3 (Some 0) ∧
    UnboundedSingleQueue.valid_ q3 = 0 ∧
    UnboundedSingleQueue.Consume (E:=brittle) (Some 9) q3 = UnboundedSingleQueue.Blocks.
Proof.
  intros q.
  set (q1 := match UnboundedSingleQueue.Produce (E:=brittle) None q with
             | UnboundedSingleQueue.Throws q1 => q1
             | _ => q
             end).
  set (q2 := match UnboundedSingleQueue.Produce (E:=brittle) (Some 5) q1 with
             | UnboundedSingleQueue.Returns q2 _ => q2
             | _ => q
             end).
  assert (UnboundedSingleQueue.Produce (E:=brittle) None q
          = UnboundedSingleQueue.Throws q1) as H1.
  { vm_compute. reflexivity. }
  assert (UnboundedSingleQueue.Produce (E:=brittle) (Some 5) q1
          = UnboundedSingleQueue.Returns q2 (Some 5)) as H2.
  { vm_compute. reflexivity. }
  assert (∃ q3, UnboundedSingleQueue.Consume (E:=brittle) (Some 9) q2
                = UnboundedSingleQueue.Returns q3 (Some 0)) as [q3' H3].
  { eexists. vm_compute. reflexivity. }
  destruct (failed_Produce_leaves_gap (E:=brittle) q q1 [] None
              (holds_fresh_unbounded (E:=brittle)) H1)
    as (_ & _ & slot & _ & _ & Hnext).
  destruct (Hnext (Some 5) q2 (Some 5) H2) as (_ & _ & _ & Hempty).
  destruct (Hempty eq_refl (Some 9)) as (q3 & Hread & Hzero & Hblocks).
  rewrite H3 in Hread.
  destruct (assign_throws (Some 9) slot); [discriminate Hread|].
  injection Hread as Hq3 _. subst q3'.
  exists q1, q2, q3. split; [exact H1|]. split; [exact H2|]. split; [exact H3|].
  split; [exact Hzero|exact (Hblocks (Some 9))].
Defined.

(** 1024 values in and out again: the first page is gone, the second is
    the one page left. *)
Lemma drained_pages_are_freed_witness :
  let rs := (UnboundedSingleQueue.ReqProduce <$> seq 0 1024)
            ++ (UnboundedSingleQueue.ReqConsume <$> replicate 1024 0) in
  ∃ q, UnboundedSingleQueue.run rs UnboundedSingleQueue.UnboundedSingleQueue
         = Some (q, seq 0 1024) ∧
       UnboundedSingleQueue.reading_ q = Some 1 ∧
       UnboundedSingleQueue.allocated q = 2 ∧
       size (UnboundedSingleQueue.store q) = 1.
Proof.
  intros rs.
  assert (∃ q, UnboundedSingleQueue.run rs UnboundedSingleQueue.UnboundedSingleQueue
               = Some (q, seq 0 1024)) as [q Hrun].
  { eexists. vm_compute. reflexivity. }
  assert (UnboundedSingleQueue.consumes rs = 1024) as Hconsumes by (vm_compute; reflexivity).
  assert (UnboundedSingleQueue.produces rs = 1024) as Hproduces by (vm_compute; reflexivity).
  pose proof (run_valid rs _ q _ Hrun) as Hvalid.
  rewrite Hconsumes, Hproduces in Hvalid.
  change (UnboundedSingleQueue.valid_ UnboundedSingleQueue.UnboundedSingleQueue)
    with 0 in Hvalid.
  destruct (drained_pages_are_freed rs q _ Hrun)
    as (r & Hr & _ & _ & Hsize & Hread & Hdrained & _ & Hone).
  rewrite Hconsumes in Hread.
  change UnboundedSingleQueue.entries_count with 1023 in Hread, Hdrained.
  assert (r = 1) as -> by lia.
  assert (size (UnboundedSingleQueue.store q) = 1) as Hsize1 by (apply Hone; lia).
  exists q. split; [exact Hrun|]. split; [exact Hr|]. split; [lia|exact Hsize1].
Defined.

Section Unbounded_duo.
Import UnboundedSingleQueue.
Context {T : Type} {E : Element T}.

Opaque entries_count.

Ltac fields :=
  unfold new_page, SetFilling, SetReading, set_store, set_valid_,
    set_filling_current_, set_reading_current_, deref, poke;
  cbn [store allocated valid_ filling_ reading_ filling_current_ filling_end_
       reading_current_ reading_end_ fst snd].

(** [Produce] is its writing part, then its post. *)
Lemma Produce_split v (q : t T) :
  Produce v q
  = match Produce_write v q with
    | Returns q' x => Returns (set_valid_ (Semaphore.post (valid_ q')) q') x
    | Throws q' => Throws q'
    | Blocks => Blocks
    | Faults => Faults
    end.
Proof.
  unfold Produce, Produce_write. destruct (grow q) as [q1|]; [|done].
  cbv zeta. destruct (deref _ _); [|done]. by destruct (assign_throws _ _).
Qed.

(** [Consume] is its wait, then its reading part. *)
Lemma Consume_split out (q : t T) :
  Consume out q
  = match WaitSemaphore (valid_ q) with
    | Some v => Consume_read out (set_valid_ v q)
    | None => Blocks
    end.
Proof. reflexivity. Qed.

Lemma Produce_write_set_valid v n (q : t T) :
  Produce_write v (set_valid_ n q)
  = match Produce_write v q with
    | Returns q' x => Returns (set_valid_ n q') x
    | Throws q' => Throws (set_valid_ n q')
    | Blocks => Blocks
    | Faults => Faults
    end.
Proof.
  assert (grow (set_valid_ n q) = set_valid_ n <$> grow q) as Hgrow.
  { destruct q as [m al vl f rd fc fe rc re]. unfold grow. fields.
    case_decide; [|done]. fields. by case_match. }
  unfold Produce_write. rewrite Hgrow. destruct (grow q) as [q1|]; [|done].
  destruct q1 as [m al vl f rd fc fe rc re]. cbn [fmap option_fmap option_map]. fields.
  destruct (m !! fc.1 ≫= _); [|done]. by case_match.
Qed.

Lemma Consume_read_set_valid out n (q : t T) :
  Consume_read out (set_valid_ n q)
  = match Consume_read out q with
    | Returns q' x => Returns (set_valid_ n q') x
    | Throws q' => Throws (set_valid_ n q')
    | Blocks => Blocks
    | Faults => Faults
    end.
Proof.
  assert (turn (set_valid_ n q) = set_valid_ n <$> turn q) as Hturn.
  { destruct q as [m al vl f rd fc fe rc re]. unfold turn. fields.
    case_decide; [|done]. destruct (rd ≫= _) as [pg|]; [|done]. by destruct (next pg). }
  unfold Consume_read. rewrite Hturn. destruct (turn q) as [q1|]; [|done].
  destruct q1 as [m al vl f rd fc fe rc re]. cbn [fmap option_fmap option_map]. fields.
  destruct (m !! rc.1 ≫= _); [|done]. by case_match.
Qed.

Lemma Produce_write_valid v (q q' : t T) x :
  Produce_write v q = Returns q' x → valid_ q' = valid_ q.
Proof.
  intros Hw. pose proof (Produce_write_set_valid v (valid_ q) q) as Hshift.
  rewrite set_valid_same, Hw in Hshift. by injection Hshift as ->.
Qed.

Lemma Consume_read_valid out (q q' : t T) x :
  Consume_read out q = Returns q' x → valid_ q' = valid_ q.
Proof.
  intros Hr. pose proof (Consume_read_set_valid out (valid_ q) q) as Hshift.
  rewrite set_valid_same, Hr in Hshift. by injection Hshift as ->.
Qed.

(** The writing part on a queue of the two threads: it never blocks and
    never strays; when it returns, the value is behind the items. *)
Lemma paired_write (q : t T) items v :
  holds (set_valid_ (length items) q) items →
  Produce_write v q ≠ Faults ∧ Produce_write v q ≠ Blocks ∧
  ∀ q' x, Produce_write v q = Returns q' x →
          x = v ∧ holds (set_valid_ (length (items ++ [v])) q') (items ++ [v]).
Proof.
  intros Hq.
  destruct (Produce_cases _ items v Hq) as (slot & q1 & q2 & Hcall & Hq2 & _).
  rewrite Produce_split, Produce_write_set_valid in Hcall.
  destruct (Produce_write v q) as [q' x| | |]; destruct (assign_throws slot v); try done.
  split; [done|]. split; [done|].
  intros ? ? [= <- <-]. injection Hcall as <- ->. split; [done|].
  rewrite length_app, Nat.add_1_r.
  assert (valid_ (set_valid_ (Semaphore.post (valid_ (set_valid_ (length items) q')))
                    (set_valid_ (length items) q')) = length (items ++ [v])) as Hvalid
    by by apply holds_valid.
  rewrite length_app, Nat.add_1_r in Hvalid. cbn [valid_ set_valid_] in Hvalid.
  rewrite <- Hvalid at 1. exact Hq2.
Qed.

(** The reading part on a queue of the two threads that holds an item:
    it never strays; when it returns, it has the oldest item. *)
Lemma paired_read (q : t T) x items out :
  holds (set_valid_ (S (length items)) q) (x :: items) →
  Consume_read out q ≠ Faults ∧ Consume_read out q ≠ Blocks ∧
  ∀ q' y, Consume_read out q = Returns q' y →
          y = x ∧ holds (set_valid_ (length items) q') items.
Proof.
  intros Hq.
  destruct (Consume_cases _ x items out Hq) as (q1 & Hcall & Hq1 & _).
  rewrite Consume_split in Hcall. cbn [valid_ set_valid_] in Hcall.
  change (WaitSemaphore (S (length items))) with (Some (length items)) in Hcall.
  cbv beta iota in Hcall.
  change (set_valid_ (length items) (set_valid_ (S (length items)) q))
    with (set_valid_ (length items) q) in Hcall.
  rewrite Consume_read_set_valid in Hcall.
  destruct (Consume_read out q) as [q' y| | |]; destruct (assign_throws out x); try done.
  split; [done|]. split; [done|].
  intros ? ? [= <- <-]. by injection Hcall as <- ->.
Qed.

(** Every step keeps the queue of the two threads holding its items: a
    [Write] puts its value behind them, a [Read] takes the oldest. *)
Lemma act_paired m (s s' : duo T) xs items :
  paired s items → act m s = Some (s', xs) →
  ∃ items', paired s' items' ∧ items ++ writes [m] = xs ++ items'.
Proof.
  destruct s as [q p c]. intros [Hq Hcount]. cbn [queue posting reading] in *.
  destruct m as [v| | |out]; cbn [act queue posting reading writes].
  - destruct p; [done|].
    destruct (paired_write q items v Hq) as (_ & _ & Hret).
    destruct (Produce_write v q) as [q' x| | |] eqn:Hw; try done.
    intros [= <- <-]. destruct (Hret q' x eq_refl) as [-> Hq'].
    apply Produce_write_valid in Hw.
    exists (items ++ [v]). split; [|done].
    split; [done|]. cbn [queue posting reading inside] in *.
    rewrite length_app. cbn. lia.
  - destruct p; [|done]. intros [= <- <-].
    exists items. split; [|by rewrite app_nil_r].
    split; [done|]. cbn [queue posting reading inside valid_ set_valid_] in *.
    change (Semaphore.post (valid_ q)) with (S (valid_ q)). lia.
  - destruct c; [done|].
    destruct (WaitSemaphore (valid_ q)) as [vl|] eqn:Hwait; [|done].
    apply wait_some in Hwait. intros [= <- <-].
    exists items. split; [|by rewrite app_nil_r].
    split; [done|]. cbn [queue posting reading inside valid_ set_valid_] in *. lia.
  - destruct c; [|done].
    destruct items as [|x items]; [cbn in Hcount; lia|]. cbn [length] in Hq.
    destruct (paired_read q x items out Hq) as (_ & _ & Hret).
    destruct (Consume_read out q) as [q' y| | |] eqn:Hr; try done.
    intros [= <- <-]. destruct (Hret q' y eq_refl) as [-> Hq'].
    apply Consume_read_valid in Hr.
    exists items. split; [|by rewrite app_nil_r].
    split; [done|]. cbn [queue posting reading inside length] in *. lia.
Qed.

Lemma play_paired ms : ∀ (s s' : duo T) got items,
  paired s items → play ms s = Some (s', got) →
  ∃ items', paired s' items' ∧ items ++ writes ms = got ++ items'.
Proof.
  induction ms as [|m ms IH]; intros s s' got items Hs Hplay.
  - injection Hplay as <- <-. exists items. by rewrite app_nil_r.
  - cbn [play] in Hplay.
    destruct (act m s) as [[s1 xs]|] eqn:Hact; [|done].
    destruct (play ms s1) as [[s2 got1]|] eqn:Hrest; [|done].
    injection Hplay as <- <-.
    destruct (act_paired m s s1 xs items Hs Hact) as (items1 & Hs1 & Heq1).
    destruct (IH s1 s2 got1 items1 Hs1 Hrest) as (items2 & Hs2 & Heq2).
    exists items2. split; [done|].
    change (m :: ms) with ([m] ++ ms).
    assert (writes ([m] ++ ms) = writes [m] ++ writes ms) as -> by by destruct m.
    by rewrite app_assoc, Heq1, <- !app_assoc, Heq2.
Qed.

(** The values read are as many as the posts that were waited for. *)
Lemma play_posts ms : ∀ (s s' : duo T) got,
  play ms s = Some (s', got) →
  length got + valid_ (queue s') + inside (reading s')
  = valid_ (queue s) + inside (reading s) + posts ms.
Proof.
  induction ms as [|m ms IH]; intros s s' got Hplay.
  - injection Hplay as <- <-. cbn. lia.
  - cbn [play] in Hplay.
    destruct (act m s) as [[s1 xs]|] eqn:Hact; [|done].
    destruct (play ms s1) as [[s2 got1]|] eqn:Hrest; [|done].
    injection Hplay as <- <-. apply IH in Hrest. rewrite length_app.
    destruct s as [q p c].
    destruct m as [v| | |out]; cbn [act queue posting reading posts] in *.
    + destruct p; [done|].
      destruct (Produce_write v q) as [q' x| | |] eqn:Hw; try done.
      apply Produce_write_valid in Hw. injection Hact as <- <-.
      cbn [queue reading length] in *. lia.
    + destruct p; [|done]. injection Hact as <- <-.
      cbn [queue reading length valid_ set_valid_] in *.
      change (Semaphore.post (valid_ q)) with (S (valid_ q)) in Hrest. lia.
    + destruct c; [done|].
      destruct (WaitSemaphore (valid_ q)) as [vl|] eqn:Hwait; [|done].
      apply wait_some in Hwait. injection Hact as <- <-.
      cbn [queue reading length valid_ set_valid_ inside] in *. lia.
    + destruct c; [|done].
      destruct (Consume_read out q) as [q' y| | |] eqn:Hr; try done.
      apply Consume_read_valid in Hr. injection Hact as <- <-.
      cbn [queue reading length inside] in *. lia.
Qed.

Lemma paired_fresh : paired (mkDuo (UnboundedSingleQueue (T:=T)) false false) [].
Proof. split; [apply holds_fresh_unbounded|done]. Qed.

(** X16.  One producer and one consumer, their steps interleaved in any
    way on a new queue.  The values the consumer has read are, in order,
    the first of the values the producer has written, and never more
    than the posts made: no entry is read before the post that follows
    its writing.  In every state reached, the producer's writing part
    finds its page, and the consumer, once through its wait, finds the
    entry to read: neither comes to a null or dangling page. *)
Theorem one_producer_one_consumer (ms : list (move T)) (s : duo T) (got : list T)
    (v out : T) :
  play ms (mkDuo UnboundedSingleQueue false false) = Some (s, got) →
  got = take (length got) (writes ms) ∧
  length got + valid_ (queue s) + inside (reading s) = posts ms ∧
  posts ms + inside (posting s) = length (writes ms) ∧
  Produce_write v (queue s) ≠ Faults ∧
  (reading s = true → Consume_read out (queue s) ≠ Faults).
Proof.
  intros Hplay.
  destruct (play_paired ms _ _ got [] paired_fresh Hplay) as (items & [Hq Hcount] & Heq).
  pose proof (play_posts ms _ _ got Hplay) as Hposts.
  cbn [app queue reading valid_ inside] in Heq, Hposts.
  change (valid_ UnboundedSingleQueue) with 0 in Hposts.
  split_and!.
  - by rewrite Heq, take_app_length.
  - lia.
  - rewrite Heq, length_app. lia.
  - by destruct (paired_write (queue s) items v Hq) as (? & _).
  - intros Hreading. rewrite Hreading in Hcount. cbn [inside] in Hcount.
    destruct items as [|x items]; [cbn in Hcount; lia|].
    by destruct (paired_read (queue s) x items out Hq) as (? & _).
Qed.

Transparent entries_count.

End Unbounded_duo.

(** The consumer waits for the first post while the producer is writing
    its second value. *)
Lemma one_producer_one_consumer_witness :
  let ms := [UnboundedSingleQueue.Write 1; UnboundedSingleQueue.Post;
             UnboundedSingleQueue.Write 2; UnboundedSingleQueue.Wait;
             UnboundedSingleQueue.Read 0; UnboundedSingleQueue.Post;
             UnboundedSingleQueue.Wait; UnboundedSingleQueue.Write 3;
             UnboundedSingleQueue.Read 0] in
  ∃ s, UnboundedSingleQueue.play ms
         (UnboundedSingleQueue.mkDuo UnboundedSingleQueue.UnboundedSingleQueue false false)
       = Some (s, [1; 2]) ∧
       [1; 2] = take 2 [1; 2; 3] ∧
       UnboundedSingleQueue.valid_ (UnboundedSingleQueue.queue s) = 0.
Proof.
  intros ms.
  assert (∃ s, UnboundedSingleQueue.play ms
                 (UnboundedSingleQueue.mkDuo UnboundedSingleQueue.UnboundedSingleQueue
                    false false) = Some (s, [1; 2]) ∧
               UnboundedSingleQueue.reading s = false) as (s & Hplay & Hreading).
  { eexists. vm_compute. by split. }
  destruct (one_producer_one_consumer ms s [1; 2] 0 0 Hplay) as (Hfifo & Hposts & _).
  exists s. split; [exact Hplay|]. split; [exact Hfifo|].
  rewrite Hreading in Hposts. cbn in Hposts. lia.
Defined.
